(** * RP2040_Volume: tone generation on a PWM pin pair

    A shallow embedding of [RP2040_Volume.h]: the frequency converter
    [freq_to_us], the volume quantisation and toggle count of [tone], the
    timer callback [timer_cb], and the lifecycle operations [tone],
    [stop_tone] and the destructor, run against an explicit model of the
    PWM levels, the heap and the alarm pools.

    Integers of the source are [Z] with their width written out; [float] and
    [double] are the IEEE-754 binary32 and binary64 formats of the standard
    library's [SpecFloat]; handles are [option positive], [None] being the
    null pointer (or alarm id 0). *)

From stdpp Require Import gmap list.
From Stdlib Require Import ZArith Lia Bool.
From Stdlib Require Import Floats.SpecFloat.

Local Open Scope Z_scope.

(** ** Constants of the header *)

Definition TIME_MS : Z := 0.
Definition TIME_US : Z := 1.
Definition TOP : Z := 1000.
Definition TONE_ALARM_POOL_HARDWARE_ALARM_NUM : Z := 3.

(** ** Machine arithmetic *)

Module C.

(** Value range of an unsigned integer of [w] bits. *)
Definition in_uint (w z : Z) : bool := (0 <=? z) && (z <? 2 ^ w).

(** Unsigned arithmetic of [w] bits wraps around. *)
Definition wrap (w z : Z) : Z := z mod 2 ^ w.

(** Integer division; a zero divisor has no defined result. *)
Definition udiv (a b : Z) : option Z :=
  if b =? 0 then None else Some (a / b).

(** [float] is binary32, [double] is binary64. *)
Definition fprec : Z := 24.
Definition femax : Z := 128.
Definition dprec : Z := 53.
Definition demax : Z := 1024.

Definition is_float (x : spec_float) : bool := valid_binary fprec femax x.
Definition is_nan (x : spec_float) : bool :=
  match x with S754_nan => true | _ => false end.

(** Integer literals and integer-to-floating conversions (exact for the
    constants used here). *)
Definition float_of_Z (z : Z) : spec_float :=
  binary_normalize fprec femax z 0 false.
Definition double_of_Z (z : Z) : spec_float :=
  binary_normalize dprec demax z 0 false.

(** The promotion of a [float] to [double] keeps the value. *)
Definition double_of_float (x : spec_float) : spec_float :=
  match x with
  | S754_finite s m e => binary_round dprec demax s m e
  | _ => x
  end.

Definition fmul : spec_float -> spec_float -> spec_float := SFmul fprec femax.
Definition dmul : spec_float -> spec_float -> spec_float := SFmul dprec demax.
Definition ddiv : spec_float -> spec_float -> spec_float := SFdiv dprec demax.

(** [round] of <math.h>: the nearest integer, halfway cases away from
    zero.  A finite argument gives an integer-valued result, kept here as
    that integer; an infinity or a NaN is returned unchanged and has no
    integer value ([None]). *)
Definition half_away (m : positive) (e : Z) : Z :=
  match e with
  | Zneg p => (2 * Zpos m + 2 ^ Zpos p) / (2 * 2 ^ Zpos p)
  | _ => Zpos m * 2 ^ e
  end.

Definition round (x : spec_float) : option Z :=
  match x with
  | S754_zero _ => Some 0
  | S754_finite s m e => Some (if s then - half_away m e else half_away m e)
  | S754_infinity _ | S754_nan => None
  end.

(** Conversion of a floating value to an unsigned integer of [w] bits:
    defined only when the value fits. *)
Definition cast_uint (w : Z) (r : option Z) : option Z :=
  match r with
  | Some z => if in_uint w z then Some z else None
  | None => None
  end.

End C.

(** ** Frequency converter *)

(** [(1.0/(2.0*freq)) * 1e6], evaluated in [double]. *)
Definition half_period_double (freq : spec_float) : spec_float :=
  C.dmul
    (C.ddiv (C.double_of_Z 1)
            (C.dmul (C.double_of_Z 2) (C.double_of_float freq)))
    (C.double_of_Z 1000000).

(** [freq_to_us]: [(uint32_t)round((1.0/(2.0*freq)) * 1e6)]. *)
Definition freq_to_us (freq : spec_float) : option Z :=
  C.cast_uint 32 (C.round (half_period_double freq)).

(** ** Volume quantisation, lines 121 to 129 of [tone] *)

(** The two clamping tests, in the order of the source.  The comparisons are
    made in [float]; both are false on a NaN. *)
Definition clamp_volume (volume : spec_float) : spec_float :=
  let volume :=
    if SFltb (C.float_of_Z 100) volume then C.float_of_Z 100 else volume in
  if SFltb volume (C.float_of_Z 0) then C.float_of_Z 0 else volume.

(** [(uint16_t)round(volume * 10.0f)] after clamping. *)
Definition resolve_level (volume : spec_float) : option Z :=
  C.cast_uint 16 (C.round (C.fmul (clamp_volume volume) (C.float_of_Z 10))).

(** ** Toggle count, the [switch] of lines 138 to 145 *)

(** [old] is the value [_numRepeats] holds before the statement; a time unit
    that matches no [case] leaves it as it is. *)
Definition num_repeats (time duration usPerWave old : Z) : option Z :=
  if time =? TIME_US then C.udiv (C.wrap 32 duration) usPerWave
  else if time =? TIME_MS then C.udiv (C.wrap 32 (1000 * duration)) usPerWave
  else Some old.

(** ** The schedule handed to the timer callback *)

Record timer_data := {
  numRepeats : Z;
  repeats : Z;
  high : bool;
  pinPlus : Z;
  pinMinus : Z;
  sliceNum : Z;
  diff : bool;
  level : Z
}.

(** A call [pwm_set_gpio_level(gpio, level)]. *)
Definition pwm_write : Type := Z * Z.

(** Both leads (or the single lead) to zero duty level. *)
Definition silence (t : timer_data) : list pwm_write :=
  (pinPlus t, 0) :: (if diff t then [(pinMinus t, 0)] else []).

(** The writes of a toggling invocation made with phase flag [h]. *)
Definition drive (t : timer_data) (h : bool) : list pwm_write :=
  if diff t then
    if h then [(pinPlus t, 0); (pinMinus t, level t)]
    else [(pinPlus t, level t); (pinMinus t, 0)]
  else
    if h then [(pinPlus t, 0)]
    else [(pinPlus t, level t)].

Definition set_repeats (r : Z) (t : timer_data) : timer_data :=
  {| numRepeats := numRepeats t; repeats := r; high := high t;
     pinPlus := pinPlus t; pinMinus := pinMinus t; sliceNum := sliceNum t;
     diff := diff t; level := level t |}.

Definition set_high (h : bool) (t : timer_data) : timer_data :=
  {| numRepeats := numRepeats t; repeats := repeats t; high := h;
     pinPlus := pinPlus t; pinMinus := pinMinus t; sliceNum := sliceNum t;
     diff := diff t; level := level t |}.

(** [timer_cb]: the schedule after the invocation, the PWM writes it made in
    order, and its return value. *)
Definition timer_cb (tData : timer_data)
  : timer_data * list pwm_write * bool :=
  let tData := set_repeats (C.wrap 32 (repeats tData + 1)) tData in
  if numRepeats tData <=? repeats tData then
    (tData, silence tData, false)
  else
    (set_high (negb (high tData)) tData, drive tData (high tData), true).

(** The invocations a repeating timer makes of the callback: it calls again
    as long as the callback returns [true].  [fuel] bounds the number of
    invocations looked at. *)
Fixpoint run_timer (fuel : nat) (t : timer_data)
  : list (list pwm_write * bool) :=
  match fuel with
  | O => []
  | S fuel =>
      let '(t', ws, again) := timer_cb t in
      (ws, again) :: (if again then run_timer fuel t' else [])
  end.

(** ** Collaborators: PWM peripheral, heap and timer mechanism *)

(** Configuration of one PWM slice, as [pwm_init] leaves it. *)
Record pwm_slice := {
  sl_enabled : bool;
  sl_wrap : Z;
  sl_phase_correct : bool;
  sl_clkdiv : Z;
  sl_counter : Z
}.

(** A repeating timer registered in an alarm pool.  Its callback is always
    [timer_cb]. *)
Record alarm := {
  al_pool : positive;
  al_period : Z;
  al_user_data : positive
}.

(** [repeating_timer_t]: [alarm_id] is [None] when the timer is not
    registered. *)
Record repeating_timer := {
  alarm_id : option positive;
  pool : option positive
}.

(** Everything outside the instance: the live [timer_data] objects, the live
    alarm pools, the registered repeating timers, and the PWM and GPIO
    state.  [next] is the supply of handles; a handle is never given out
    twice, so a released one stays recognisable. *)
Record world := {
  heap : gmap positive timer_data;
  pools : gset positive;
  alarms : gmap positive alarm;
  gpio_pwm : gset Z;
  pwm_slices : gmap Z pwm_slice;
  pwm_level : gmap Z Z;
  next : positive
}.

Definition world0 : world :=
  {| heap := ∅; pools := ∅; alarms := ∅; gpio_pwm := ∅;
     pwm_slices := ∅; pwm_level := ∅; next := 1%positive |}.

(** Duty level of a pin; a pin never written is at the reset level 0. *)
Definition level_of (w : world) (gpio : Z) : Z :=
  default 0 (pwm_level w !! gpio).

(** Modelled from the spec: the PWM, GPIO and timer collaborators of section
    6 (pico-sdk), which are not part of the repository, and the [new] and
    [delete] of the language.  A result of [None] is a fault: the release of
    a handle that is not live, or the use of a pool that is gone.  Releasing
    a null handle does nothing, as section 4.4 takes it. *)
Module SDK.

Definition op (A : Type) : Type := world -> option (A * world).

Definition with_heap (h : gmap positive timer_data) (w : world) : world :=
  {| heap := h; pools := pools w; alarms := alarms w;
     gpio_pwm := gpio_pwm w; pwm_slices := pwm_slices w;
     pwm_level := pwm_level w; next := next w |}.

Definition with_pools (p : gset positive) (w : world) : world :=
  {| heap := heap w; pools := p; alarms := alarms w;
     gpio_pwm := gpio_pwm w; pwm_slices := pwm_slices w;
     pwm_level := pwm_level w; next := next w |}.

Definition with_alarms (a : gmap positive alarm) (w : world) : world :=
  {| heap := heap w; pools := pools w; alarms := a;
     gpio_pwm := gpio_pwm w; pwm_slices := pwm_slices w;
     pwm_level := pwm_level w; next := next w |}.

Definition with_gpio_pwm (g : gset Z) (w : world) : world :=
  {| heap := heap w; pools := pools w; alarms := alarms w;
     gpio_pwm := g; pwm_slices := pwm_slices w;
     pwm_level := pwm_level w; next := next w |}.

Definition with_slices (s : gmap Z pwm_slice) (w : world) : world :=
  {| heap := heap w; pools := pools w; alarms := alarms w;
     gpio_pwm := gpio_pwm w; pwm_slices := s;
     pwm_level := pwm_level w; next := next w |}.

Definition with_level (l : gmap Z Z) (w : world) : world :=
  {| heap := heap w; pools := pools w; alarms := alarms w;
     gpio_pwm := gpio_pwm w; pwm_slices := pwm_slices w;
     pwm_level := l; next := next w |}.

Definition with_next (n : positive) (w : world) : world :=
  {| heap := heap w; pools := pools w; alarms := alarms w;
     gpio_pwm := gpio_pwm w; pwm_slices := pwm_slices w;
     pwm_level := pwm_level w; next := n |}.

(** A slice holds two neighbouring pins. *)
Definition pwm_gpio_to_slice_num (gpio : Z) : Z :=
  Z.land (Z.shiftr gpio 1) 7.

Definition gpio_set_function_pwm (gpio : Z) : op unit :=
  fun w => Some (tt, with_gpio_pwm ({[gpio]} ∪ gpio_pwm w) w).

Definition slice_reset : pwm_slice :=
  {| sl_enabled := false; sl_wrap := 65535; sl_phase_correct := false;
     sl_clkdiv := 1; sl_counter := 0 |}.

Definition slice_of (w : world) (s : Z) : pwm_slice :=
  default slice_reset (pwm_slices w !! s).

Definition pwm_set_enabled (s : Z) (b : bool) : op unit :=
  fun w =>
    let c := slice_of w s in
    Some (tt, with_slices
                (<[s := {| sl_enabled := b; sl_wrap := sl_wrap c;
                           sl_phase_correct := sl_phase_correct c;
                           sl_clkdiv := sl_clkdiv c;
                           sl_counter := sl_counter c |}]> (pwm_slices w)) w).

(** [pwm_init] with a configuration of the given wrap, phase correction
    and integer clock divider. *)
Definition pwm_init (s wrap : Z) (phase : bool) (clkdiv : Z) (start : bool)
  : op unit :=
  fun w =>
    Some (tt, with_slices
                (<[s := {| sl_enabled := start; sl_wrap := wrap;
                           sl_phase_correct := phase; sl_clkdiv := clkdiv;
                           sl_counter := 0 |}]> (pwm_slices w)) w).

Definition pwm_set_counter (s c : Z) : op unit :=
  fun w =>
    let sl := slice_of w s in
    Some (tt, with_slices
                (<[s := {| sl_enabled := sl_enabled sl; sl_wrap := sl_wrap sl;
                           sl_phase_correct := sl_phase_correct sl;
                           sl_clkdiv := sl_clkdiv sl;
                           sl_counter := c |}]> (pwm_slices w)) w).

Definition pwm_set_gpio_level (gpio lvl : Z) : op unit :=
  fun w => Some (tt, with_level (<[gpio := lvl]> (pwm_level w)) w).

(** [new timer_data()]: a fresh object, all fields zero. *)
Definition timer_data_zero : timer_data :=
  {| numRepeats := 0; repeats := 0; high := false; pinPlus := 0;
     pinMinus := 0; sliceNum := 0; diff := false; level := 0 |}.

Definition new_timer_data : op positive :=
  fun w =>
    let p := next w in
    Some (p, with_next (Pos.succ p)
               (with_heap (<[p := timer_data_zero]> (heap w)) w)).

(** Stores through a pointer need a live object. *)
Definition store (p : positive) (t : timer_data) : op unit :=
  fun w =>
    match heap w !! p with
    | Some _ => Some (tt, with_heap (<[p := t]> (heap w)) w)
    | None => None
    end.

Definition delete (p : option positive) : op unit :=
  fun w =>
    match p with
    | None => Some (tt, w)
    | Some p =>
        match heap w !! p with
        | Some _ => Some (tt, with_heap (base.delete p (heap w)) w)
        | None => None
        end
    end.

Definition alarm_pool_create (hardware_alarm_num : Z) : op positive :=
  fun w =>
    let q := next w in
    Some (q, with_next (Pos.succ q) (with_pools ({[q]} ∪ pools w) w)).

(** Destroying a pool takes the timers registered in it along. *)
Definition alarm_pool_destroy (q : option positive) : op unit :=
  fun w =>
    match q with
    | None => Some (tt, w)
    | Some q =>
        if decide (q ∈ pools w) then
          Some (tt, with_alarms
                      (filter (fun kv => al_pool kv.2 ≠ q) (alarms w))
                      (with_pools (pools w ∖ {[q]}) w))
        else None
    end.

Definition alarm_pool_add_repeating_timer_us
    (q : positive) (delay_us : Z) (user_data : positive)
  : op repeating_timer :=
  fun w =>
    if decide (q ∈ pools w) then
      let a := next w in
      Some ({| alarm_id := Some a; pool := Some q |},
            with_next (Pos.succ a)
              (with_alarms
                 (<[a := {| al_pool := q; al_period := delay_us;
                            al_user_data := user_data |}]> (alarms w)) w))
    else None.

(** Cancelling does nothing on a timer that is not registered; otherwise
    it goes through the timer's pool, which has to be live. *)
Definition cancel_repeating_timer (t : repeating_timer)
  : op (bool * repeating_timer) :=
  fun w =>
    match alarm_id t with
    | None => Some ((false, t), w)
    | Some a =>
        match pool t with
        | Some q =>
            if decide (q ∈ pools w) then
              Some ((bool_decide (is_Some (alarms w !! a)),
                     {| alarm_id := None; pool := pool t |}),
                    with_alarms (base.delete a (alarms w)) w)
            else None
        | None => None
        end
    end.

End SDK.

(** ** The instance *)

Record RP2040_Volume := {
  _level : Z;
  _pinPlus : Z;
  _pinMinus : Z;
  _sliceNum : Z;
  _diff : bool;
  _timerData : option positive;
  _numRepeats : Z;
  _alarmPool : option positive;
  _timer : repeating_timer
}.

Definition set_level (l : Z) (s : RP2040_Volume) : RP2040_Volume :=
  {| _level := l; _pinPlus := _pinPlus s; _pinMinus := _pinMinus s;
     _sliceNum := _sliceNum s; _diff := _diff s; _timerData := _timerData s;
     _numRepeats := _numRepeats s; _alarmPool := _alarmPool s;
     _timer := _timer s |}.

Definition set_timerData (p : option positive) (s : RP2040_Volume)
  : RP2040_Volume :=
  {| _level := _level s; _pinPlus := _pinPlus s; _pinMinus := _pinMinus s;
     _sliceNum := _sliceNum s; _diff := _diff s; _timerData := p;
     _numRepeats := _numRepeats s; _alarmPool := _alarmPool s;
     _timer := _timer s |}.

Definition set_numRepeats (n : Z) (s : RP2040_Volume) : RP2040_Volume :=
  {| _level := _level s; _pinPlus := _pinPlus s; _pinMinus := _pinMinus s;
     _sliceNum := _sliceNum s; _diff := _diff s; _timerData := _timerData s;
     _numRepeats := n; _alarmPool := _alarmPool s; _timer := _timer s |}.

Definition set_alarmPool (q : option positive) (s : RP2040_Volume)
  : RP2040_Volume :=
  {| _level := _level s; _pinPlus := _pinPlus s; _pinMinus := _pinMinus s;
     _sliceNum := _sliceNum s; _diff := _diff s; _timerData := _timerData s;
     _numRepeats := _numRepeats s; _alarmPool := q; _timer := _timer s |}.

Definition set_timer (t : repeating_timer) (s : RP2040_Volume)
  : RP2040_Volume :=
  {| _level := _level s; _pinPlus := _pinPlus s; _pinMinus := _pinMinus s;
     _sliceNum := _sliceNum s; _diff := _diff s; _timerData := _timerData s;
     _numRepeats := _numRepeats s; _alarmPool := _alarmPool s; _timer := t |}.

(** An instance together with the world it runs in. *)
Record machine := { self : RP2040_Volume; hw : world }.

(** ** Member functions as state transformers

    A member function either faults ([None]) or returns a value, the
    machine it leaves, and the worlds it went through: one entry per call of
    a collaborator, in order. *)

Definition M (A : Type) : Type := machine -> option (A * machine * list world).

#[global] Instance M_ret : MRet M := fun A a m => Some (a, m, []).

#[global] Instance M_bind : MBind M := fun A B f c m =>
  match c m with
  | Some (a, m1, l1) =>
      match f a m1 with
      | Some (b, m2, l2) => Some (b, m2, l1 ++ l2)
      | None => None
      end
  | None => None
  end.

(** Read the instance. *)
Definition this : M RP2040_Volume := fun m => Some (self m, m, []).

(** Assign to a field of the instance. *)
Definition assign (f : RP2040_Volume -> RP2040_Volume) : M unit :=
  fun m => Some (tt, {| self := f (self m); hw := hw m |}, []).

(** Call a collaborator. *)
Definition call {A : Type} (o : SDK.op A) : M A :=
  fun m =>
    match o (hw m) with
    | Some (a, w) => Some (a, {| self := self m; hw := w |}, [w])
    | None => None
    end.

(** A computation whose result may be undefined. *)
Definition defined {A : Type} (o : option A) : M A :=
  fun m => match o with Some a => Some (a, m, []) | None => None end.

Definition when (b : bool) (c : M unit) : M unit := if b then c else mret tt.

(** [p != NULL]. *)
Definition non_null {A : Type} (p : option A) : bool :=
  match p with Some _ => true | None => false end.

(** The constructor, on a world, with the indeterminate contents of the two
    members it leaves unset ([_level] and [_numRepeats]).  A failed [assert]
    gives no instance. *)
Definition RP2040_Volume_new (pin_plus pin_minus : Z)
    (indet_level indet_numRepeats : Z) (w : world) : option machine :=
  let diff := negb (pin_minus =? 255) in
  let slice := SDK.pwm_gpio_to_slice_num pin_plus in
  let s := {| _level := indet_level; _pinPlus := pin_plus;
              _pinMinus := if diff then pin_minus else 255;
              _sliceNum := slice; _diff := diff; _timerData := None;
              _numRepeats := indet_numRepeats; _alarmPool := None;
              _timer := {| alarm_id := None; pool := None |} |} in
  if diff then
    if SDK.pwm_gpio_to_slice_num pin_minus =? slice then
      '(_, w) ← SDK.gpio_set_function_pwm pin_plus w;
      '(_, w) ← SDK.gpio_set_function_pwm pin_minus w;
      Some {| self := s; hw := w |}
    else None
  else
    '(_, w) ← SDK.gpio_set_function_pwm pin_plus w;
    Some {| self := s; hw := w |}.

(** [cancel_timer]: [cancel_repeating_timer(&_timer)]. *)
Definition cancel_timer : M unit :=
  s ← this;
  r ← call (SDK.cancel_repeating_timer (_timer s));
  assign (set_timer r.2).

(** [tone], statement by statement.  The local [pwm_config] (phase
    correction on, integer clock divider 1, wrap [TOP]) is handed to
    [pwm_init] with [start = false]; the channel argument of the source's
    call has no place in the slice state kept here.  [duration] is a
    [uint16_t] and [time] a [uint8_t].  The three computations that can be
    undefined are the two conversions to an unsigned integer and the
    division of the toggle count. *)
Definition tone (freq volume : spec_float) (duration time : Z) : M unit :=
  usPerWave ← defined (freq_to_us freq);
  s ← this;
  call (SDK.pwm_set_enabled (_sliceNum s) false);;
  call (SDK.pwm_init (_sliceNum s) TOP true 1 false);;
  lvl ← defined (resolve_level volume);
  assign (set_level lvl);;
  call (SDK.pwm_set_gpio_level (_pinPlus s) 0);;
  when (_diff s) (call (SDK.pwm_set_gpio_level (_pinMinus s) lvl));;
  n ← defined (num_repeats time duration usPerWave (_numRepeats s));
  assign (set_numRepeats n);;
  when (non_null (_timerData s))
       (cancel_timer;; call (SDK.delete (_timerData s)));;
  p ← call SDK.new_timer_data;
  assign (set_timerData (Some p));;
  call (SDK.store p {| numRepeats := n; repeats := 0; high := false;
                       pinPlus := _pinPlus s; pinMinus := _pinMinus s;
                       sliceNum := _sliceNum s; diff := _diff s;
                       level := lvl |});;
  when (non_null (_alarmPool s))
       (call (SDK.alarm_pool_destroy (_alarmPool s)));;
  q ← call (SDK.alarm_pool_create TONE_ALARM_POOL_HARDWARE_ALARM_NUM);
  assign (set_alarmPool (Some q));;
  t ← call (SDK.alarm_pool_add_repeating_timer_us q usPerWave p);
  assign (set_timer t);;
  call (SDK.pwm_set_counter (_sliceNum s) 0);;
  call (SDK.pwm_set_enabled (_sliceNum s) true).

(** [stop_tone]: both handles are released and reset, then the leads are
    put low. *)
Definition stop_tone : M unit :=
  cancel_timer;;
  s ← this;
  call (SDK.delete (_timerData s));;
  assign (set_timerData None);;
  call (SDK.alarm_pool_destroy (_alarmPool s));;
  assign (set_alarmPool None);;
  call (SDK.pwm_set_gpio_level (_pinPlus s) 0);;
  when (_diff s) (call (SDK.pwm_set_gpio_level (_pinMinus s) 0)).

(** The destructor: the three releases of lines 87 to 89.  The members of
    the instance are dead afterwards; what remains of the machine is its
    world. *)
Definition destructor : M unit :=
  cancel_timer;;
  s ← this;
  call (SDK.delete (_timerData s));;
  call (SDK.alarm_pool_destroy (_alarmPool s)).

(** ** The timer fires

    One invocation of the callback by the timer mechanism, on the schedule
    registered with the instance's timer.  When the callback returns [false]
    the mechanism drops the timer.  [None]: no timer is registered, so no
    invocation takes place. *)

Definition apply_writes (ws : list pwm_write) (l : gmap Z Z) : gmap Z Z :=
  foldl (fun l w => <[w.1 := w.2]> l) l ws.

Definition fire (m : machine) : option machine :=
  a ← alarm_id (_timer (self m));
  al ← alarms (hw m) !! a;
  tData ← heap (hw m) !! al_user_data al;
  let '(tData', ws, again) := timer_cb tData in
  let w := SDK.with_level (apply_writes ws (pwm_level (hw m)))
             (SDK.with_heap (<[al_user_data al := tData']> (heap (hw m)))
                (hw m)) in
  Some (if again then {| self := self m; hw := w |}
        else {| self := set_timer {| alarm_id := None;
                                     pool := pool (_timer (self m)) |} (self m);
                hw := SDK.with_alarms (delete a (alarms w)) w |}).

(** ** Reachable machines: construction on the empty world, then any
    sequence of [tone], [stop_tone] and timer invocations. *)

Inductive reachable : machine -> Prop :=
| reach_new pin_plus pin_minus l0 n0 m :
    RP2040_Volume_new pin_plus pin_minus l0 n0 world0 = Some m ->
    reachable m
| reach_tone m freq volume duration time m' log :
    reachable m ->
    tone freq volume duration time m = Some (tt, m', log) ->
    reachable m'
| reach_stop m m' log :
    reachable m ->
    stop_tone m = Some (tt, m', log) ->
    reachable m'
| reach_fire m m' :
    reachable m ->
    fire m = Some m' ->
    reachable m'.

(** ** Vocabulary of the properties *)

(** The trace of a run with [k] toggling invocations: the phase alternates,
    starting from the flag of the schedule. *)
Definition toggles (t : timer_data) (k : nat) : list (list pwm_write * bool) :=
  map (fun i => (drive t (xorb (high t) (Nat.odd i)), true)) (seq 0 k).

(** The timer stops at its [n]-th invocation of the callback: given room for
    [n] invocations it makes exactly [n], the last one silences the leads
    and returns [false], all the earlier ones return [true]. *)
Definition stops_at (t : timer_data) (n : nat) : Prop :=
  forall fuel, (n <= fuel)%nat ->
    length (run_timer fuel t) = n /\
    last (run_timer fuel t) = Some (silence t, false) /\
    Forall (fun x => x.2 = true) (removelast (run_timer fuel t)).

(** A schedule as [tone] creates it, with an arbitrary phase flag. *)
Definition fresh_schedule (t : timer_data) : Prop :=
  repeats t = 0 /\ 0 <= numRepeats t < 2 ^ 32.

(** Resource accounting: at most one object of each kind is live. *)
Definition at_most_one {K : Type} `{Countable K} (X : gset K) : Prop :=
  forall x y, x ∈ X -> y ∈ X -> x = y.

Definition one_at_a_time (w : world) : Prop :=
  at_most_one (dom (heap w)) /\ at_most_one (pools w) /\
  at_most_one (dom (alarms w)).

(** The three states of an instance and its world.  In each, the live
    resources are exactly the ones the instance holds handles to, and they
    were given out before: the supply is past them. *)
Inductive accounted : machine -> Prop :=
| acc_idle s w :
    _timerData s = None -> _alarmPool s = None ->
    alarm_id (_timer s) = None ->
    heap w = ∅ -> pools w = ∅ -> alarms w = ∅ ->
    accounted {| self := s; hw := w |}
| acc_running s w p q a tData al :
    _timerData s = Some p -> _alarmPool s = Some q ->
    _timer s = {| alarm_id := Some a; pool := Some q |} ->
    heap w = {[p := tData]} -> pools w = {[q]} -> alarms w = {[a := al]} ->
    al_pool al = q -> al_user_data al = p ->
    (p < next w)%positive -> (q < next w)%positive -> (a < next w)%positive ->
    accounted {| self := s; hw := w |}
| acc_drained s w p q tData :
    _timerData s = Some p -> _alarmPool s = Some q ->
    alarm_id (_timer s) = None ->
    heap w = {[p := tData]} -> pools w = {[q]} -> alarms w = ∅ ->
    (p < next w)%positive -> (q < next w)%positive ->
    accounted {| self := s; hw := w |}.

(** No schedule, no live resource, both leads at zero. *)
Definition quiescent (m : machine) : Prop :=
  _timerData (self m) = None /\ _alarmPool (self m) = None /\
  alarm_id (_timer (self m)) = None /\
  heap (hw m) = ∅ /\ pools (hw m) = ∅ /\ alarms (hw m) = ∅ /\
  level_of (hw m) (_pinPlus (self m)) = 0 /\
  (_diff (self m) = true -> level_of (hw m) (_pinMinus (self m)) = 0).

(** The instance and the world [tone] leaves behind, given the half period
    [h], the level [l] and the toggle count [n] it computed: the three
    handles are the next three of the supply. *)
Record tone_post (m : machine) (h l n : Z) (m' : machine) : Prop := {
  tp_self :
    self m' =
      {| _level := l; _pinPlus := _pinPlus (self m);
         _pinMinus := _pinMinus (self m); _sliceNum := _sliceNum (self m);
         _diff := _diff (self m); _timerData := Some (next (hw m));
         _numRepeats := n; _alarmPool := Some (Pos.succ (next (hw m)));
         _timer := {| alarm_id := Some (Pos.succ (Pos.succ (next (hw m))));
                      pool := Some (Pos.succ (next (hw m))) |} |};
  tp_heap :
    heap (hw m') =
      {[ next (hw m) :=
           {| numRepeats := n; repeats := 0; high := false;
              pinPlus := _pinPlus (self m); pinMinus := _pinMinus (self m);
              sliceNum := _sliceNum (self m); diff := _diff (self m);
              level := l |} ]};
  tp_pools : pools (hw m') = {[ Pos.succ (next (hw m)) ]};
  tp_alarms :
    alarms (hw m') =
      {[ Pos.succ (Pos.succ (next (hw m))) :=
           {| al_pool := Pos.succ (next (hw m)); al_period := h;
              al_user_data := next (hw m) |} ]};
  tp_level :
    pwm_level (hw m') =
      if _diff (self m)
      then <[_pinMinus (self m) := l]> (<[_pinPlus (self m) := 0]> (pwm_level (hw m)))
      else <[_pinPlus (self m) := 0]> (pwm_level (hw m));
  tp_next : next (hw m') = Pos.succ (Pos.succ (Pos.succ (next (hw m))))
}.


(** The duration in microseconds. *)
Definition duration_us (time duration : Z) : Z :=
  if time =? TIME_MS then 1000 * duration else duration.


(** ** Positions and grids of binary32 numbers

    The vocabulary of the facts about [resolve_level] and [freq_to_us]. *)

(** Rounding of [N / 2^k] to the nearest integer, ties to the even one. *)
Definition rne (N k : Z) : Z :=
  let q := N / 2 ^ k in
  let r := N mod 2 ^ k in
  if 2 * r <? 2 ^ k then q
  else if 2 ^ k <? 2 * r then q + 1
  else if Z.even q then q else q + 1.

(** Exponent of the last place of a number of 24 significant bits whose
    scaled value is [N]; [lo] is the exponent of the smallest step. *)
Definition ulp_exp (lo N : Z) : Z := Z.max (Z.log2 N + 1 - 24) lo.

(** The scaled value [N] rounded to the grid of such numbers. *)
Definition grid_round (lo N : Z) : Z :=
  rne N (ulp_exp lo N) * 2 ^ ulp_exp lo N.

(** What [binary_round_aux] makes of a mantissa and an exponent after
    rounding. *)
Definition pack (q e : Z) : spec_float :=
  match q with
  | Z0 => S754_zero false
  | Zpos m => if e <=? 104 then S754_finite false m e else S754_infinity false
  | Zneg _ => S754_nan
  end.

(** The position of a binary32 value on the line, in units of the smallest
    subnormal, [2^-149]; the infinities lie beyond every finite value. *)
Definition ord (x : spec_float) : Z :=
  match x with
  | S754_zero _ => 0
  | S754_finite s m e =>
      if s then - (Zpos m * 2 ^ (e + 149)) else Zpos m * 2 ^ (e + 149)
  | S754_infinity s => if s then - 2 ^ 300 else 2 ^ 300
  | S754_nan => 0
  end.

(** The level of a clamped volume at position [V]: the product with ten,
    in units of [2^-169], is rounded to the binary32 grid, then to the
    nearest integer, halves up. *)
Definition level_at (V : Z) : Z :=
  if V =? 0 then 0
  else (grid_round 20 (10485760 * V) + 2 ^ 168) / 2 ^ 169.





(** The sign bit of a floating value is not set (a NaN has none). *)
Definition sign_clear (x : spec_float) : Prop :=
  match x with
  | S754_zero s | S754_infinity s | S754_finite s _ _ => s = false
  | S754_nan => True
  end.


(** ** Concrete machines, for the examples *)

(** What a member function leaves, and the worlds it went through; a fault
    leaves the machine as it was. *)
Definition run_of {A : Type} (c : M A) (m : machine) : machine :=
  match c m with Some (_, m', _) => m' | None => m end.

Definition log_of {A : Type} (c : M A) (m : machine) : list world :=
  match c m with Some (_, _, log) => log | None => [] end.

(** A differential instance on GPIO 14 and 15, never started. *)
Definition demo_idle : machine :=
  {| self := {| _level := 0; _pinPlus := 14; _pinMinus := 15; _sliceNum := 7;
                _diff := true; _timerData := None; _numRepeats := 0;
                _alarmPool := None;
                _timer := {| alarm_id := None; pool := None |} |};
     hw := SDK.with_gpio_pwm {[15; 14]} world0 |}.

(** [tone(1000, 100, 1, TIME_MS)] on it: half period 500, two toggles. *)
Definition demo_tone : M unit :=
  tone (C.float_of_Z 1000) (C.float_of_Z 100) 1 TIME_MS.

Definition demo_started : machine := run_of demo_tone demo_idle.

(** The same after the first invocation of the callback. *)
Definition demo_running : machine := default demo_started (fire demo_started).

(** A differential schedule of [n] toggles, as [tone] stores it. *)
Definition demo_schedule (n : Z) : timer_data :=
  {| numRepeats := n; repeats := 0; high := false; pinPlus := 14;
     pinMinus := 15; sliceNum := 7; diff := true; level := 1000 |}.


(** ** The life of an instance *)

(** [n] successive invocations of the callback by the timer mechanism. *)
Fixpoint fire_n (n : nat) (m : machine) : option machine :=
  match n with
  | O => Some m
  | S n => m' ← fire m; fire_n n m'
  end.

(** Arguments as the parameter types of [tone] admit them: two [float]s, a
    [uint16_t] and a [uint8_t]. *)
Definition valid_call (freq volume : spec_float) (duration time : Z) : Prop :=
  C.is_float freq = true /\ C.is_float volume = true /\
  0 <= duration < 2 ^ 16 /\ 0 <= time < 2 ^ 8.

(** The machines an instance constructed on the pins [pin_plus] and
    [pin_minus] (two [uint8_t]) goes through: the indeterminate members
    hold some value of their type, and [tone] gets arguments of its
    parameter types. *)
Inductive lifetime (pin_plus pin_minus : Z) : machine -> Prop :=
| life_new l0 n0 m :
    0 <= pin_plus < 2 ^ 8 -> 0 <= pin_minus < 2 ^ 8 ->
    0 <= l0 < 2 ^ 16 -> 0 <= n0 < 2 ^ 32 ->
    RP2040_Volume_new pin_plus pin_minus l0 n0 world0 = Some m ->
    lifetime pin_plus pin_minus m
| life_tone m freq volume duration time m' log :
    lifetime pin_plus pin_minus m ->
    valid_call freq volume duration time ->
    tone freq volume duration time m = Some (tt, m', log) ->
    lifetime pin_plus pin_minus m'
| life_stop m m' log :
    lifetime pin_plus pin_minus m ->
    stop_tone m = Some (tt, m', log) ->
    lifetime pin_plus pin_minus m'
| life_fire m m' :
    lifetime pin_plus pin_minus m ->
    fire m = Some m' ->
    lifetime pin_plus pin_minus m'.

(** What stays true of the instance and its world all through its life. *)
Record kept (pin_plus pin_minus : Z) (m : machine) : Prop := {
  k_accounted : accounted m;
  k_plus : _pinPlus (self m) = pin_plus;
  k_minus : _pinMinus (self m) = pin_minus;
  k_diff : _diff (self m) = negb (pin_minus =? 255);
  k_slice : _sliceNum (self m) = SDK.pwm_gpio_to_slice_num pin_plus;
  k_count : 0 <= _numRepeats (self m) < 2 ^ 32;
  k_schedule : forall p tData,
    heap (hw m) !! p = Some tData ->
    pinPlus tData = pin_plus /\ pinMinus tData = pin_minus /\
    diff tData = negb (pin_minus =? 255) /\
    sliceNum tData = SDK.pwm_gpio_to_slice_num pin_plus /\
    level tData = _level (self m) /\ 0 <= level tData <= TOP /\
    numRepeats tData = _numRepeats (self m) /\
    0 <= repeats tData < 2 ^ 32;
  k_levels : forall gpio v,
    pwm_level (hw m) !! gpio = Some v ->
    (gpio = pin_plus \/ (pin_minus <> 255 /\ gpio = pin_minus)) /\
    0 <= v <= TOP;
  k_gpio : forall gpio,
    gpio ∈ gpio_pwm (hw m) <->
    gpio = pin_plus \/ (pin_minus <> 255 /\ gpio = pin_minus)
}.

(** The pins, the mode, the slice and the routing of the pins do not
    change from [m] to [m']. *)
Definition same_config (m m' : machine) : Prop :=
  _pinPlus (self m') = _pinPlus (self m) /\
  _pinMinus (self m') = _pinMinus (self m) /\
  _diff (self m') = _diff (self m) /\
  _sliceNum (self m') = _sliceNum (self m) /\
  gpio_pwm (hw m') = gpio_pwm (hw m).

(** Nor do the level, the toggle count and the configuration of the PWM
    slices. *)
Definition same_settings (m m' : machine) : Prop :=
  same_config m m' /\
  _level (self m') = _level (self m) /\
  _numRepeats (self m') = _numRepeats (self m) /\
  pwm_slices (hw m') = pwm_slices (hw m).

(** Whenever [c] returns, the machine it leaves is related by [R] to the
    one it started from. *)
Definition keeps {A : Type} (R : machine -> machine -> Prop) (c : M A) : Prop :=
  forall m a m' log, c m = Some (a, m', log) -> R m m'.


(** A collaborator that routes no pin. *)
Definition op_frame {A : Type} (o : SDK.op A) : Prop :=
  forall w a w', o w = Some (a, w') -> gpio_pwm w' = gpio_pwm w.

(** A collaborator that routes no pin and leaves the slices as they are. *)
Definition op_frame_slices {A : Type} (o : SDK.op A) : Prop :=
  forall w a w', o w = Some (a, w') ->
    gpio_pwm w' = gpio_pwm w /\ pwm_slices w' = pwm_slices w.


(** The timer of the instance is registered and its callback runs on the
    schedule [tData]. *)
Definition running_as (m : machine) (tData : timer_data) : Prop :=
  exists a al,
    alarm_id (_timer (self m)) = Some a /\
    alarms (hw m) !! a = Some al /\
    heap (hw m) !! al_user_data al = Some tData.

(** The schedule [tData] after [k] toggling invocations. *)
Definition toggled (k : nat) (tData : timer_data) : timer_data :=
  set_high (xorb (high tData) (Nat.odd k))
    (set_repeats (repeats tData + Z.of_nat k) tData).

(** What the leads read after a toggling invocation made with flag [h]. *)
Definition leads_read (w : world) (tData : timer_data) (h : bool) : Prop :=
  level_of w (pinPlus tData) = (if h then 0 else level tData) /\
  (diff tData = true ->
   level_of w (pinMinus tData) = (if h then level tData else 0)).


(** A registered timer whose pool or schedule is gone would have the
    callback run on freed memory. *)
Definition no_dangling (w : world) : Prop :=
  forall a al,
    alarms w !! a = Some al ->
    al_pool al ∈ pools w /\ is_Some (heap w !! al_user_data al).

(** The sign bit of a floating value is set (a NaN has none). *)
Definition sign_set (x : spec_float) : Prop :=
  match x with
  | S754_zero s | S754_infinity s | S754_finite s _ _ => s = true
  | S754_nan => True
  end.

(** The [float] nearest to [n / d]. *)
Definition float_ratio (n d : Z) : spec_float :=
  SFdiv C.fprec C.femax (C.float_of_Z n) (C.float_of_Z d).

(** Every volume from [t/10 - 0.04] to [t/10 + 0.04] resolves to the level
    [t]: checked at two volumes [lo] and [hi] of the format that enclose
    this range, the floats nearest to [t/10 - 0.045] and [t/10 + 0.045]. *)
Definition tenth_at (t : Z) : bool :=
  let lo := float_ratio (100 * t - 45) 1000 in
  let hi := float_ratio (100 * t + 45) 1000 in
  match resolve_level lo, resolve_level hi with
  | Some a, Some b =>
      (a =? t) && (b =? t) &&
      C.is_float lo && C.is_float hi &&
      negb (C.is_nan lo) && negb (C.is_nan hi) &&
      (100 * ord lo <=? (10 * t - 4) * 2 ^ 149) &&
      ((10 * t + 4) * 2 ^ 149 <=? 100 * ord hi)
  | _, _ => false
  end.

Fixpoint tenth_from (count : nat) (t : Z) : bool :=
  match count with
  | O => true
  | S count => tenth_at t && tenth_from count (t + 1)
  end.


(** * Properties *)

(** ** The timer callback *)

Section Callback.

Implicit Types t : timer_data.

Lemma drive_set_high h' t h : drive (set_high h' t) h = drive t h.
Proof. reflexivity. Qed.

(** The final invocation: the counter reaches the target. *)
Lemma timer_cb_final t :
  numRepeats t <= C.wrap 32 (repeats t + 1) ->
  timer_cb t = (set_repeats (C.wrap 32 (repeats t + 1)) t, silence t, false).
Proof.
  intros H. unfold timer_cb. cbn [numRepeats repeats set_repeats].
  destruct (Z.leb_spec (numRepeats t) (C.wrap 32 (repeats t + 1))); [|lia].
  reflexivity.
Qed.

(** Any other invocation toggles. *)
Lemma timer_cb_toggle t :
  C.wrap 32 (repeats t + 1) < numRepeats t ->
  timer_cb t =
    (set_high (negb (high t)) (set_repeats (C.wrap 32 (repeats t + 1)) t),
     drive t (high t), true).
Proof.
  intros H. unfold timer_cb. cbn [numRepeats repeats set_repeats high].
  destruct (Z.leb_spec (numRepeats t) (C.wrap 32 (repeats t + 1))); [lia|].
  reflexivity.
Qed.

Lemma wrap_small w z : 0 <= z < 2 ^ w -> C.wrap w z = z.
Proof. intros H. unfold C.wrap. apply Z.mod_small. exact H. Qed.

Lemma toggles_S t k :
  toggles t (S k) =
    (drive t (high t), true) :: toggles (set_high (negb (high t)) t) k.
Proof.
  unfold toggles. cbn [seq map]. f_equal.
  - rewrite xorb_false_r. reflexivity.
  - rewrite <- seq_shift, map_map. apply map_ext. intros i.
    rewrite drive_set_high. cbn [high set_high]. rewrite Nat.odd_succ.
    rewrite <- Nat.negb_odd. destruct (high t), (Nat.odd i); reflexivity.
Qed.

Lemma run_timer_trace k : forall fuel t,
  0 <= repeats t ->
  numRepeats t < 2 ^ 32 ->
  repeats t + 1 < 2 ^ 32 ->
  Z.of_nat k = Z.max 0 (numRepeats t - repeats t - 1) ->
  (k < fuel)%nat ->
  run_timer fuel t = toggles t k ++ [(silence t, false)].
Proof.
  induction k as [|k IH]; intros fuel t Hr HN Hr1 Hk Hf.
  - destruct fuel as [|fuel]; [lia|]. cbn [run_timer].
    rewrite timer_cb_final by (rewrite wrap_small; lia). reflexivity.
  - destruct fuel as [|fuel]; [lia|]. cbn [run_timer].
    rewrite timer_cb_toggle by (rewrite wrap_small; lia).
    rewrite wrap_small by lia.
    rewrite toggles_S. cbn [app]. f_equal.
    rewrite (IH fuel); cbn [numRepeats repeats set_high set_repeats]; try lia.
    reflexivity.
Qed.

End Callback.

(** ** Running the member functions on an accounted machine *)

(** Symbolic execution of the monadic code: unfold the combinators and the
    collaborators, then resolve the lookups and membership tests that show
    up on the way. *)
Ltac run_M :=
  unfold cancel_timer, when, mbind, M_bind, mret, M_ret, this, assign, call,
    defined, SDK.store, SDK.delete, SDK.alarm_pool_destroy,
    SDK.alarm_pool_add_repeating_timer_us, SDK.cancel_repeating_timer,
    SDK.new_timer_data, SDK.alarm_pool_create, SDK.pwm_set_gpio_level,
    SDK.pwm_set_enabled, SDK.pwm_init, SDK.pwm_set_counter,
    SDK.with_heap, SDK.with_pools, SDK.with_alarms, SDK.with_slices,
    SDK.with_level, SDK.with_next;
  cbn [self hw heap pools alarms gpio_pwm pwm_slices pwm_level next
       SDK.with_heap SDK.with_pools SDK.with_alarms SDK.with_gpio_pwm
       SDK.with_slices SDK.with_level SDK.with_next
       SDK.pwm_set_enabled SDK.pwm_init SDK.pwm_set_counter
       SDK.pwm_set_gpio_level SDK.new_timer_data SDK.store SDK.delete
       SDK.alarm_pool_create SDK.alarm_pool_destroy
       SDK.alarm_pool_add_repeating_timer_us SDK.cancel_repeating_timer
       _level _pinPlus _pinMinus _sliceNum _diff _timerData _numRepeats
       _alarmPool _timer set_level set_timerData set_numRepeats set_alarmPool
       set_timer alarm_id pool fst snd app non_null].

Ltac run_step :=
  first
    [ rewrite lookup_singleton_eq
    | rewrite lookup_insert_eq
    | rewrite decide_True by set_solver
    | rewrite delete_singleton_eq
    | rewrite map_filter_empty
    | rewrite (right_id_L ∅ (∪))
    | rewrite difference_diag_L
    | rewrite insert_insert_eq
    | rewrite delete_empty
    | rewrite insert_empty ].

Ltac run := run_M; repeat (run_step; run_M).

Lemma tone_inv freq volume duration time m u m' log :
  tone freq volume duration time m = Some (u, m', log) ->
  exists h l n,
    freq_to_us freq = Some h /\ resolve_level volume = Some l /\
    num_repeats time duration h (_numRepeats (self m)) = Some n.
Proof.
  unfold tone. run_M.
  destruct (freq_to_us freq) as [h|]; [|discriminate].
  destruct (resolve_level volume) as [l|]; [|discriminate].
  destruct (_diff (self m));
  run_M;
  (destruct (num_repeats time duration h (_numRepeats (self m))) as [n|] eqn:En;
   [|discriminate]); intros _; exists h, l, n; auto.
Qed.

Ltac oat :=
  unfold one_at_a_time, at_most_one;
  cbn [self hw heap pools alarms gpio_pwm pwm_slices pwm_level next];
  set_solver.

Lemma tone_run freq volume duration time m h l n :
  accounted m ->
  freq_to_us freq = Some h ->
  resolve_level volume = Some l ->
  num_repeats time duration h (_numRepeats (self m)) = Some n ->
  exists m' log,
    tone freq volume duration time m = Some (tt, m', log) /\
    tone_post m h l n m' /\ Forall one_at_a_time log.
Proof.
  intros Hacc Hh Hl Hn. unfold tone. rewrite Hh, Hl.
  destruct Hacc as [s w Ht Hq Ha Hheap Hpools Halarms
                   | s w p q a tData al Ht Hq Ha Hheap Hpools Halarms Hal1 Hal2
                       Hfp Hfq Hfa
                   | s w p q tData Ht Hq Ha Hheap Hpools Halarms Hfp Hfq];
    destruct s as [l0 pp pm sn d td0 nr ap tm];
    destruct w as [hp pl alm gp sl lv nx];
    cbn [self hw heap pools alarms gpio_pwm pwm_slices pwm_level next
         _timerData _alarmPool _timer _numRepeats] in *;
    subst.
  all: destruct d; run; rewrite Hn; run.
  all: try (destruct tm as [ai tp]; cbn [alarm_id] in Ha; subst ai; run).
  all: eexists _, _; (split; [reflexivity|]); (split; [constructor; reflexivity|]).
  all: repeat constructor; oat.
Qed.

Ltac destruct_machine s w :=
  let l0 := fresh "l0" in let pp := fresh "pp" in let pm := fresh "pm" in
  let sn := fresh "sn" in let d := fresh "d" in let td0 := fresh "td0" in
  let nr := fresh "nr" in let ap := fresh "ap" in let tm := fresh "tm" in
  destruct s as [l0 pp pm sn d td0 nr ap tm];
  let hp := fresh "hp" in let pl := fresh "pl" in let alm := fresh "alm" in
  let gp := fresh "gp" in let sl := fresh "sl" in let lv := fresh "lv" in
  let nx := fresh "nx" in
  destruct w as [hp pl alm gp sl lv nx];
  cbn [self hw heap pools alarms gpio_pwm pwm_slices pwm_level next
       _timerData _alarmPool _timer _numRepeats _pinPlus _pinMinus _diff
       _level _sliceNum] in *;
  subst.

Ltac fields :=
  cbn [self hw heap pools alarms gpio_pwm pwm_slices pwm_level next
       _level _pinPlus _pinMinus _sliceNum _diff _timerData _numRepeats
       _alarmPool _timer set_level set_timerData set_numRepeats set_alarmPool
       set_timer alarm_id pool] in *.

Lemma level_of_insert_eq (w : world) gpio v l :
  pwm_level w = <[gpio := v]> l -> level_of w gpio = v.
Proof. intros H. unfold level_of. rewrite H, lookup_insert_eq. reflexivity. Qed.

Lemma level_of_insert2 (w : world) g1 g2 l :
  pwm_level w = <[g2 := 0]> (<[g1 := 0]> l) -> level_of w g1 = 0.
Proof.
  intros H. unfold level_of. rewrite H.
  destruct (decide (g2 = g1)) as [->|Hne].
  - rewrite lookup_insert_eq. reflexivity.
  - rewrite lookup_insert_ne by done. rewrite lookup_insert_eq. reflexivity.
Qed.

Lemma new_accounted pin_plus pin_minus l0 n0 m :
  RP2040_Volume_new pin_plus pin_minus l0 n0 world0 = Some m -> accounted m.
Proof.
  unfold RP2040_Volume_new.
  destruct (negb (pin_minus =? 255));
    [destruct (SDK.pwm_gpio_to_slice_num pin_minus =? _); [|discriminate]|];
    cbn; intros [= <-]; apply acc_idle; reflexivity.
Qed.

Lemma stop_tone_run m :
  accounted m ->
  exists m' log,
    stop_tone m = Some (tt, m', log) /\ quiescent m' /\
    Forall one_at_a_time log /\
    _pinPlus (self m') = _pinPlus (self m) /\
    _pinMinus (self m') = _pinMinus (self m) /\
    _diff (self m') = _diff (self m) /\
    pwm_level (hw m') =
      (if _diff (self m)
       then <[_pinMinus (self m) := 0]> (<[_pinPlus (self m) := 0]> (pwm_level (hw m)))
       else <[_pinPlus (self m) := 0]> (pwm_level (hw m))).
Proof.
  intros Hacc. unfold stop_tone.
  destruct Hacc as [s w Ht Hq Ha Hheap Hpools Halarms
                   | s w p q a tData al Ht Hq Ha Hheap Hpools Halarms Hal1 Hal2
                       Hfp Hfq Hfa
                   | s w p q tData Ht Hq Ha Hheap Hpools Halarms Hfp Hfq];
    destruct_machine s w.
  all: try (destruct tm as [ai tp]; cbn [alarm_id] in Ha; subst ai).
  all: destruct d; run.
  all: eexists _, _; (split; [reflexivity|]).
  all: split; [unfold quiescent; fields;
               repeat split; try reflexivity; try discriminate; intros;
               first [ eapply level_of_insert2; reflexivity
                     | eapply level_of_insert_eq; reflexivity ] |].
  all: split; [repeat constructor; oat | repeat split; reflexivity].
Qed.




(** The two functions make the same three releases, and fault together. *)
Lemma destructor_vs_stop_tone m :
  match stop_tone m, destructor m with
  | Some (_, m1, _), Some (_, m2, _) =>
      heap (hw m2) = heap (hw m1) /\ pools (hw m2) = pools (hw m1) /\
      alarms (hw m2) = alarms (hw m1) /\
      pwm_level (hw m2) = pwm_level (hw m) /\
      _timer (self m2) = _timer (self m1)
  | None, None => True
  | _, _ => False
  end.
Proof.
  unfold stop_tone, destructor, cancel_timer, when, mbind, M_bind, mret, M_ret,
    this, assign, call, defined.
  fields.
  destruct (SDK.cancel_repeating_timer (_timer (self m)) (hw m))
    as [[r w1]|] eqn:E1; fields; [|exact I].
  destruct (SDK.delete (_timerData (self m)) w1) as [[u2 w2]|] eqn:E2;
    fields; [|exact I].
  destruct (SDK.alarm_pool_destroy (_alarmPool (self m)) w2)
    as [[u3 w3]|] eqn:E3; fields; [|exact I].
  assert (Hl : pwm_level w3 = pwm_level (hw m)).
  { unfold SDK.cancel_repeating_timer in E1. unfold SDK.delete in E2.
    unfold SDK.alarm_pool_destroy in E3.
    repeat match goal with
           | H : match ?x with _ => _ end = Some _ |- _ =>
               destruct x; try discriminate H
           | H : (if ?x then _ else _) = Some _ |- _ =>
               destruct x; try discriminate H
           end.
    all: repeat match goal with H : Some _ = Some _ |- _ =>
                  injection H as <- <- end; try subst; reflexivity. }
  destruct (_diff (self m)); unfold SDK.pwm_set_gpio_level; fields;
    cbn [SDK.with_level heap pools alarms pwm_level app]; auto.
Qed.

(** ** The timer fires; reachable machines are accounted *)

(** The machine an invocation of the callback leaves. *)
Lemma fire_registered m a al tData :
  alarm_id (_timer (self m)) = Some a ->
  alarms (hw m) !! a = Some al ->
  heap (hw m) !! al_user_data al = Some tData ->
  fire m =
    Some (let w := SDK.with_level
                     (apply_writes (timer_cb tData).1.2 (pwm_level (hw m)))
                     (SDK.with_heap
                        (<[al_user_data al := (timer_cb tData).1.1]> (heap (hw m)))
                        (hw m)) in
          if (timer_cb tData).2 then {| self := self m; hw := w |}
          else {| self := set_timer {| alarm_id := None;
                                       pool := pool (_timer (self m)) |} (self m);
                  hw := SDK.with_alarms (delete a (alarms w)) w |}).
Proof.
  intros Ha Hal Hh. unfold fire. rewrite Ha. cbn [mbind option_bind].
  rewrite Hal. cbn [mbind option_bind]. rewrite Hh. cbn [mbind option_bind].
  destruct (timer_cb tData) as [[t' ws] again]. reflexivity.
Qed.

Lemma fire_unregistered m :
  alarm_id (_timer (self m)) = None -> fire m = None.
Proof. intros H. unfold fire. rewrite H. reflexivity. Qed.

Lemma fire_accounted m m' : accounted m -> fire m = Some m' -> accounted m'.
Proof.
  intros Hacc.
  destruct Hacc as [s w Ht Hq Ha Hheap Hpools Halarms
                   | s w p q a tData al Ht Hq Ha Hheap Hpools Halarms Hal1 Hal2
                       Hfp Hfq Hfa
                   | s w p q tData Ht Hq Ha Hheap Hpools Halarms Hfp Hfq].
  - rewrite fire_unregistered by exact Ha. discriminate.
  - rewrite (fire_registered _ a al tData); cbn [self hw].
    + intros [= <-]. cbn zeta.
      destruct (timer_cb tData).2.
      * eapply acc_running with (al := al); cbn [SDK.with_level SDK.with_heap heap pools alarms]; eauto.
        rewrite Hheap, Hal2. apply insert_singleton_eq.
      * eapply acc_drained; cbn [SDK.with_level SDK.with_heap SDK.with_alarms heap pools alarms set_timer _timerData _alarmPool _timer alarm_id]; eauto.
        -- rewrite Hheap, Hal2. apply insert_singleton_eq.
        -- rewrite Halarms. apply delete_singleton_eq.
    + rewrite Ha. reflexivity.
    + rewrite Halarms. apply lookup_singleton_eq.
    + rewrite Hheap, Hal2. apply lookup_singleton_eq.
  - rewrite fire_unregistered by exact Ha. discriminate.
Qed.

Lemma tone_post_accounted m h l n m' : tone_post m h l n m' -> accounted m'.
Proof.
  intros [Hs Hh Hp Ha Hl Hn]. destruct m' as [s' w']. cbn [self hw] in *.
  subst s'. eapply acc_running; try eassumption; try reflexivity;
    rewrite Hn; lia.
Qed.

Lemma quiescent_accounted m : quiescent m -> accounted m.
Proof.
  intros (Ht & Hq & Ha & Hh & Hp & Hal & _). destruct m as [s w].
  apply acc_idle; assumption.
Qed.

Lemma tone_accounted freq volume duration time m m' log :
  accounted m ->
  tone freq volume duration time m = Some (tt, m', log) ->
  exists h l n,
    freq_to_us freq = Some h /\ resolve_level volume = Some l /\
    num_repeats time duration h (_numRepeats (self m)) = Some n /\
    tone_post m h l n m' /\ Forall one_at_a_time log.
Proof.
  intros Hacc Hrun.
  destruct (tone_inv _ _ _ _ _ _ _ _ Hrun) as (h & l & n & Hh & Hl & Hn).
  destruct (tone_run freq volume duration time m h l n Hacc Hh Hl Hn)
    as (m1 & log1 & Hrun1 & Hpost & Hlog).
  rewrite Hrun in Hrun1. injection Hrun1 as <- <-.
  exists h, l, n. auto.
Qed.

Theorem reachable_accounted m : reachable m -> accounted m.
Proof.
  induction 1 as [pp pm l0 n0 m Hnew
                 | m freq volume duration time m' log _ IH Hrun
                 | m m' log _ IH Hrun
                 | m m' _ IH Hrun].
  - eapply new_accounted; eassumption.
  - destruct (tone_accounted _ _ _ _ _ _ _ IH Hrun)
      as (h & l & n & _ & _ & _ & Hpost & _).
    eapply tone_post_accounted; eassumption.
  - destruct (stop_tone_run m IH) as (m1 & log1 & Hrun1 & Hq & _).
    rewrite Hrun in Hrun1. injection Hrun1 as <- <-.
    apply quiescent_accounted, Hq.
  - eapply fire_accounted; eassumption.
Qed.

(** ** Shared facts about the examples *)

Lemma demo_idle_new : RP2040_Volume_new 14 15 0 0 world0 = Some demo_idle.
Proof. vm_compute. reflexivity. Qed.

Lemma demo_idle_reachable : reachable demo_idle.
Proof. eapply reach_new. exact demo_idle_new. Qed.

Lemma demo_tone_runs :
  demo_tone demo_idle = Some (tt, demo_started, log_of demo_tone demo_idle).
Proof. vm_compute. reflexivity. Qed.

Lemma demo_started_reachable : reachable demo_started.
Proof.
  eapply reach_tone; [exact demo_idle_reachable | exact demo_tone_runs].
Qed.

Lemma demo_fire : fire demo_started = Some demo_running.
Proof. vm_compute. reflexivity. Qed.

Lemma demo_running_reachable : reachable demo_running.
Proof.
  eapply reach_fire; [exact demo_started_reachable | exact demo_fire].
Qed.

(** ** The schedule runs to its end *)

Lemma toggles_all_true t k :
  Forall (fun x : list pwm_write * bool => x.2 = true) (toggles t k).
Proof.
  unfold toggles. apply Forall_map. apply Forall_forall. intros; reflexivity.
Qed.

Lemma trace_stops_at t n :
  (forall fuel, (n <= fuel)%nat ->
     run_timer fuel t = toggles t (n - 1) ++ [(silence t, false)]) ->
  (1 <= n)%nat ->
  stops_at t n.
Proof.
  intros Htr Hn fuel Hf. rewrite (Htr fuel Hf). repeat split.
  - rewrite length_app. unfold toggles. rewrite length_map, length_seq.
    cbn [length]. lia.
  - apply last_snoc.
  - rewrite removelast_last. apply toggles_all_true.
Qed.

(** C1, as stated, fails for a schedule of zero toggles: the timer still
    invokes the callback once, and that first invocation is the one that
    silences the leads and returns [false]; the schedule is not complete
    after zero invocations. *)
Lemma timer_cb_zero_toggles_counterexample :
  fresh_schedule (demo_schedule 0) /\
  run_timer 1 (demo_schedule 0) = [(silence (demo_schedule 0), false)] /\
  ~ stops_at (demo_schedule 0) (Z.to_nat (numRepeats (demo_schedule 0))).
Proof.
  split; [|split].
  - unfold fresh_schedule. cbn. lia.
  - reflexivity.
  - intros H. destruct (H 1%nat) as [Hlen _]; [cbn; lia|]. discriminate Hlen.
Qed.

(** C1, amended: for every schedule of [N] toggles as [tone] creates it
    (counter at zero, [0 <= N < 2^32]) and any starting phase flag, the
    schedule is complete after exactly [max N 1] invocations of the
    callback: that invocation drives the plus lead (and, in differential
    mode, the minus lead) to zero and returns [false], every earlier one
    returns [true] after driving the leads by the alternating phase. *)
Theorem timer_cb_stops_at t :
  fresh_schedule t ->
  let n := Z.to_nat (Z.max 1 (numRepeats t)) in
  stops_at t n /\
  forall fuel, (n <= fuel)%nat ->
    run_timer fuel t = toggles t (n - 1) ++ [(silence t, false)].
Proof.
  intros [Hr HN] n.
  assert (Htr : forall fuel, (n <= fuel)%nat ->
            run_timer fuel t = toggles t (n - 1) ++ [(silence t, false)]).
  { intros fuel Hf. apply run_timer_trace; subst n; lia. }
  split; [|exact Htr]. apply trace_stops_at; [exact Htr|subst n; lia].
Qed.

Lemma timer_cb_stops_at_witness :
  fresh_schedule (demo_schedule 2) /\
  (stops_at (demo_schedule 2) 2 /\
   forall fuel, (2 <= fuel)%nat ->
     run_timer fuel (demo_schedule 2) =
       toggles (demo_schedule 2) 1 ++ [(silence (demo_schedule 2), false)]).
Proof.
  assert (H : fresh_schedule (demo_schedule 2)).
  { unfold fresh_schedule. cbn. lia. }
  split; [exact H|]. exact (timer_cb_stops_at (demo_schedule 2) H).
Defined.

(** C2: on every invocation that is not the final one the callback returns
    [true], inverts the phase flag, and writes by the flag it found: flag
    high, the plus lead to zero and, in differential mode, the minus lead to
    the configured level; flag low, the plus lead to the configured level
    and, in differential mode, the minus lead to zero; in single-ended mode
    only the plus lead is written.  [tone] stores the schedule with the
    counter at zero and the flag low, so the first invocation after a start,
    when it is not the final one, writes the configured level to the plus
    lead. *)
Theorem timer_cb_toggles_by_phase :
  (forall t,
     C.wrap 32 (repeats t + 1) < numRepeats t ->
     (timer_cb t).2 = true /\
     high (timer_cb t).1.1 = negb (high t) /\
     (timer_cb t).1.2 =
       (if high t
        then (pinPlus t, 0) :: (if diff t then [(pinMinus t, level t)] else [])
        else (pinPlus t, level t) :: (if diff t then [(pinMinus t, 0)] else [])) /\
     (diff t = false -> Forall (fun w => w.1 = pinPlus t) (timer_cb t).1.2)) /\
  (forall m freq volume duration time m' log,
     reachable m ->
     tone freq volume duration time m = Some (tt, m', log) ->
     exists p tData,
       _timerData (self m') = Some p /\
       heap (hw m') !! p = Some tData /\
       repeats tData = 0 /\ high tData = false /\
       pinPlus tData = _pinPlus (self m') /\
       level tData = _level (self m') /\
       (1 < numRepeats tData ->
        exists ws, (timer_cb tData).1.2 = (_pinPlus (self m'), _level (self m')) :: ws)).
Proof.
  split.
  - intros t Hnf. rewrite (timer_cb_toggle t Hnf). cbn [fst snd high set_high].
    repeat split.
    + unfold drive. destruct (high t), (diff t); reflexivity.
    + intros Hd. unfold drive. rewrite Hd.
      destruct (high t); repeat constructor.
  - intros m freq volume duration time m' log Hreach Hrun.
    destruct (tone_accounted _ _ _ _ _ _ _ (reachable_accounted m Hreach) Hrun)
      as (h & l & n & _ & _ & _ & [Hs Hh _ _ _ _] & _).
    eexists _, _. rewrite Hs, Hh. cbn [_timerData _pinPlus _level].
    split; [reflexivity|]. split; [apply lookup_singleton_eq|].
    cbn [repeats high pinPlus level numRepeats]. repeat split.
    intros Hn. rewrite timer_cb_toggle.
    + cbn [fst snd]. unfold drive.
      cbn [diff high pinPlus level]. destruct (_diff (self m)); eauto.
    + cbn [repeats numRepeats]. rewrite wrap_small; lia.
Qed.

Lemma timer_cb_toggles_by_phase_witness :
  (C.wrap 32 (repeats (demo_schedule 2) + 1) < numRepeats (demo_schedule 2) /\
   (timer_cb (demo_schedule 2)).1.2 = [(14, 1000); (15, 0)]) /\
  (reachable demo_idle /\
   demo_tone demo_idle = Some (tt, demo_started, log_of demo_tone demo_idle) /\
   exists p tData,
     _timerData (self demo_started) = Some p /\
     heap (hw demo_started) !! p = Some tData /\
     repeats tData = 0 /\ high tData = false /\
     pinPlus tData = _pinPlus (self demo_started) /\
     level tData = _level (self demo_started) /\
     (1 < numRepeats tData ->
      exists ws, (timer_cb tData).1.2 =
                   (_pinPlus (self demo_started), _level (self demo_started)) :: ws)).
Proof.
  destruct timer_cb_toggles_by_phase as [Hcb Htone].
  split.
  - assert (H : C.wrap 32 (repeats (demo_schedule 2) + 1)
                < numRepeats (demo_schedule 2)) by (vm_compute; reflexivity).
    split; [exact H|]. exact (proj1 (proj2 (proj2 (Hcb _ H)))).
  - split; [exact demo_idle_reachable|]. split; [exact demo_tone_runs|].
    exact (Htone _ _ _ _ _ _ _ demo_idle_reachable demo_tone_runs).
Defined.

(** ** The toggle count *)

Lemma num_repeats_ms duration h old :
  0 <= duration < 2 ^ 16 -> 0 < h ->
  num_repeats TIME_MS duration h old = Some (1000 * duration / h).
Proof.
  intros Hd Hh. unfold num_repeats, C.udiv. cbn [TIME_MS TIME_US Z.eqb].
  destruct (Z.eqb_spec h 0); [lia|]. rewrite wrap_small by lia. reflexivity.
Qed.

Lemma num_repeats_us duration h old :
  0 <= duration < 2 ^ 16 -> 0 < h ->
  num_repeats TIME_US duration h old = Some (duration / h).
Proof.
  intros Hd Hh. unfold num_repeats, C.udiv. cbn [TIME_MS TIME_US Z.eqb].
  destruct (Z.eqb_spec h 0); [lia|]. rewrite wrap_small by lia. reflexivity.
Qed.

Lemma num_repeats_other time duration h old :
  time <> TIME_MS -> time <> TIME_US ->
  num_repeats time duration h old = Some old.
Proof.
  intros Hms Hus. unfold num_repeats.
  destruct (Z.eqb_spec time TIME_US); [contradiction|].
  destruct (Z.eqb_spec time TIME_MS); [contradiction|]. reflexivity.
Qed.


(** C4: for every duration [d] (a [uint16_t]), either time unit and every
    half period [h > 0], [tone] returns and the toggle count it stores, in
    the instance and in the schedule, is [1000*d/h] for milliseconds and
    [d/h] for microseconds, the division truncating; a duration shorter than
    the half period gives zero toggles. *)
Theorem tone_toggle_count m freq volume duration time h l :
  reachable m ->
  0 <= duration < 2 ^ 16 ->
  time = TIME_MS \/ time = TIME_US ->
  freq_to_us freq = Some h ->
  0 < h ->
  resolve_level volume = Some l ->
  exists m' log p tData,
    tone freq volume duration time m = Some (tt, m', log) /\
    _timerData (self m') = Some p /\ heap (hw m') !! p = Some tData /\
    numRepeats tData = _numRepeats (self m') /\
    (time = TIME_MS -> _numRepeats (self m') = 1000 * duration / h) /\
    (time = TIME_US -> _numRepeats (self m') = duration / h) /\
    (duration_us time duration < h -> _numRepeats (self m') = 0).
Proof.
  intros Hreach Hd Ht Hfreq Hh Hl.
  assert (Hn : num_repeats time duration h (_numRepeats (self m))
               = Some (duration_us time duration / h)).
  { unfold duration_us. destruct Ht as [-> | ->].
    - apply num_repeats_ms; assumption.
    - apply num_repeats_us; assumption. }
  destruct (tone_run freq volume duration time m h l _
              (reachable_accounted m Hreach) Hfreq Hl Hn)
    as (m' & log & Hrun & [Hs Hheap _ _ _ _] & _).
  exists m', log. eexists _, _. split; [exact Hrun|].
  rewrite Hs, Hheap. cbn [_numRepeats _timerData].
  split; [reflexivity|]. split; [apply lookup_singleton_eq|].
  split; [reflexivity|]. unfold duration_us. repeat split.
  - intros ->. reflexivity.
  - intros ->. reflexivity.
  - intros Hlt. apply Z.div_small. destruct (time =? TIME_MS); lia.
Qed.

Lemma tone_toggle_count_witness :
  reachable demo_idle /\ 0 <= 1000 < 2 ^ 16 /\
  (TIME_MS = TIME_MS \/ TIME_MS = TIME_US) /\
  freq_to_us (C.float_of_Z 440) = Some 1136 /\ 0 < 1136 /\
  resolve_level (C.float_of_Z 50) = Some 500 /\
  exists m' log p tData,
    tone (C.float_of_Z 440) (C.float_of_Z 50) 1000 TIME_MS demo_idle
      = Some (tt, m', log) /\
    _timerData (self m') = Some p /\ heap (hw m') !! p = Some tData /\
    numRepeats tData = _numRepeats (self m') /\
    (TIME_MS = TIME_MS -> _numRepeats (self m') = 1000 * 1000 / 1136) /\
    (TIME_MS = TIME_US -> _numRepeats (self m') = 1000 / 1136) /\
    (duration_us TIME_MS 1000 < 1136 -> _numRepeats (self m') = 0).
Proof.
  assert (H1 : 0 <= 1000 < 2 ^ 16) by lia.
  assert (H2 : TIME_MS = TIME_MS \/ TIME_MS = TIME_US) by (left; reflexivity).
  assert (H3 : freq_to_us (C.float_of_Z 440) = Some 1136)
    by (vm_compute; reflexivity).
  assert (H4 : 0 < 1136) by lia.
  assert (H5 : resolve_level (C.float_of_Z 50) = Some 500)
    by (vm_compute; reflexivity).
  repeat (split; [assumption || exact demo_idle_reachable|]).
  exact (tone_toggle_count demo_idle _ (C.float_of_Z 50) 1000 TIME_MS 1136 500
           demo_idle_reachable H1 H2 H3 H4 H5).
Defined.

(** C10: when the time unit is neither [TIME_MS] nor [TIME_US], [tone]
    still returns and starts a schedule; the toggle count is not
    recomputed, the schedule's target is the value [_numRepeats] held
    before the call, which on the first call is the indeterminate value the
    constructor left. *)
Theorem tone_unknown_unit_keeps_count m freq volume duration time h l :
  reachable m ->
  time <> TIME_MS -> time <> TIME_US ->
  freq_to_us freq = Some h ->
  resolve_level volume = Some l ->
  exists m' log p tData,
    tone freq volume duration time m = Some (tt, m', log) /\
    _numRepeats (self m') = _numRepeats (self m) /\
    _timerData (self m') = Some p /\ heap (hw m') !! p = Some tData /\
    numRepeats tData = _numRepeats (self m) /\
    (forall pin_plus pin_minus l0 n0,
       RP2040_Volume_new pin_plus pin_minus l0 n0 world0 = Some m ->
       numRepeats tData = n0).
Proof.
  intros Hreach Hms Hus Hfreq Hl.
  pose proof (num_repeats_other time duration h (_numRepeats (self m)) Hms Hus)
    as Hn.
  destruct (tone_run freq volume duration time m h l _
              (reachable_accounted m Hreach) Hfreq Hl Hn)
    as (m' & log & Hrun & [Hs Hheap _ _ _ _] & _).
  exists m', log. eexists _, _. split; [exact Hrun|].
  rewrite Hs, Hheap. cbn [_numRepeats _timerData].
  split; [reflexivity|]. split; [reflexivity|].
  split; [apply lookup_singleton_eq|]. split; [reflexivity|].
  intros pp pm l0 n0 Hnew. cbn [numRepeats].
  unfold RP2040_Volume_new in Hnew.
  destruct (negb (pm =? 255));
    [destruct (SDK.pwm_gpio_to_slice_num pm =? _); [|discriminate]|];
    cbn in Hnew; injection Hnew as <-; reflexivity.
Qed.

Lemma tone_unknown_unit_keeps_count_witness :
  reachable demo_started /\ 7 <> TIME_MS /\ 7 <> TIME_US /\
  freq_to_us (C.float_of_Z 440) = Some 1136 /\
  resolve_level (C.float_of_Z 50) = Some 500 /\
  exists m' log p tData,
    tone (C.float_of_Z 440) (C.float_of_Z 50) 1000 7 demo_started
      = Some (tt, m', log) /\
    _numRepeats (self m') = _numRepeats (self demo_started) /\
    _timerData (self m') = Some p /\ heap (hw m') !! p = Some tData /\
    numRepeats tData = _numRepeats (self demo_started) /\
    (forall pin_plus pin_minus l0 n0,
       RP2040_Volume_new pin_plus pin_minus l0 n0 world0 = Some demo_started ->
       numRepeats tData = n0).
Proof.
  assert (H1 : 7 <> TIME_MS) by discriminate.
  assert (H2 : 7 <> TIME_US) by discriminate.
  assert (H3 : freq_to_us (C.float_of_Z 440) = Some 1136)
    by (vm_compute; reflexivity).
  assert (H4 : resolve_level (C.float_of_Z 50) = Some 500)
    by (vm_compute; reflexivity).
  repeat (split; [assumption || exact demo_started_reachable|]).
  exact (tone_unknown_unit_keeps_count demo_started _ (C.float_of_Z 50) 1000 7
           1136 500 demo_started_reachable H1 H2 H3 H4).
Defined.

(** ** One schedule at a time *)

Lemma accounted_one_at_a_time m : accounted m -> one_at_a_time (hw m).
Proof.
  intros Hacc.
  destruct Hacc as [s w Ht Hq Ha Hheap Hpools Halarms
                   | s w p q a tData al Ht Hq Ha Hheap Hpools Halarms Hal1 Hal2
                       Hfp Hfq Hfa
                   | s w p q tData Ht Hq Ha Hheap Hpools Halarms Hfp Hfq];
    unfold one_at_a_time, at_most_one; cbn [hw];
    rewrite Hheap, Hpools, Halarms; clear;
    repeat split; intros x y Hx Hy; set_unfold in Hx; set_unfold in Hy;
    solve [contradiction | congruence].
Qed.

(** Handles of an accounted machine were given out before. *)
Lemma accounted_below_next m :
  accounted m ->
  (forall p, p ∈ dom (heap (hw m)) -> (p < next (hw m))%positive) /\
  (forall q, q ∈ pools (hw m) -> (q < next (hw m))%positive) /\
  (forall a, a ∈ dom (alarms (hw m)) -> (a < next (hw m))%positive).
Proof.
  intros Hacc.
  destruct Hacc as [s w Ht Hq Ha Hheap Hpools Halarms
                   | s w p q a tData al Ht Hq Ha Hheap Hpools Halarms Hal1 Hal2
                       Hfp Hfq Hfa
                   | s w p q tData Ht Hq Ha Hheap Hpools Halarms Hfp Hfq];
    cbn [hw]; rewrite Hheap, Hpools, Halarms;
    repeat split; intros x Hx; set_unfold in Hx;
    solve [contradiction | subst; assumption].
Qed.

(** C6: in every reachable state at most one schedule object, one alarm pool
    and one repeating timer are live, and the same holds after each
    collaborator call [tone] makes: the prior timer is cancelled and the
    prior schedule and pool are released before the new ones are made.
    After the call exactly one schedule, one pool and one timer are live,
    all three new, and they are the ones the instance holds. *)
Theorem tone_one_schedule m freq volume duration time h l n :
  reachable m ->
  freq_to_us freq = Some h ->
  resolve_level volume = Some l ->
  num_repeats time duration h (_numRepeats (self m)) = Some n ->
  one_at_a_time (hw m) /\
  exists m' log p q a tData al,
    tone freq volume duration time m = Some (tt, m', log) /\
    Forall one_at_a_time log /\
    _timerData (self m') = Some p /\ _alarmPool (self m') = Some q /\
    _timer (self m') = {| alarm_id := Some a; pool := Some q |} /\
    heap (hw m') = {[p := tData]} /\ pools (hw m') = {[q]} /\
    alarms (hw m') = {[a := al]} /\
    al_pool al = q /\ al_user_data al = p /\
    (p ∉ dom (heap (hw m))) /\ (q ∉ pools (hw m)) /\
    (a ∉ dom (alarms (hw m))).
Proof.
  intros Hreach Hfreq Hl Hn.
  pose proof (reachable_accounted m Hreach) as Hacc.
  split; [apply accounted_one_at_a_time, Hacc|].
  destruct (tone_run freq volume duration time m h l n Hacc Hfreq Hl Hn)
    as (m' & log & Hrun & [Hs Hheap Hpools Halarms _ _] & Hlog).
  destruct (accounted_below_next m Hacc) as (Bh & Bp & Ba).
  exists m', log. eexists _, _, _, _, _.
  split; [exact Hrun|]. split; [exact Hlog|].
  rewrite Hs, Hheap, Hpools, Halarms. cbn [_timerData _alarmPool _timer].
  repeat (split; [reflexivity|]).
  repeat split.
  - intros Hin. apply Bh in Hin. lia.
  - intros Hin. apply Bp in Hin. lia.
  - intros Hin. apply Ba in Hin. lia.
Qed.

Lemma tone_one_schedule_witness :
  reachable demo_running /\
  freq_to_us (C.float_of_Z 440) = Some 1136 /\
  resolve_level (C.float_of_Z 50) = Some 500 /\
  num_repeats TIME_MS 1000 1136 (_numRepeats (self demo_running)) = Some 880 /\
  (one_at_a_time (hw demo_running) /\
   exists m' log p q a tData al,
     tone (C.float_of_Z 440) (C.float_of_Z 50) 1000 TIME_MS demo_running
       = Some (tt, m', log) /\
     Forall one_at_a_time log /\
     _timerData (self m') = Some p /\ _alarmPool (self m') = Some q /\
     _timer (self m') = {| alarm_id := Some a; pool := Some q |} /\
     heap (hw m') = {[p := tData]} /\ pools (hw m') = {[q]} /\
     alarms (hw m') = {[a := al]} /\
     al_pool al = q /\ al_user_data al = p /\
     (p ∉ dom (heap (hw demo_running))) /\ (q ∉ pools (hw demo_running)) /\
     (a ∉ dom (alarms (hw demo_running)))).
Proof.
  assert (H1 : freq_to_us (C.float_of_Z 440) = Some 1136)
    by (vm_compute; reflexivity).
  assert (H2 : resolve_level (C.float_of_Z 50) = Some 500)
    by (vm_compute; reflexivity).
  assert (H3 : num_repeats TIME_MS 1000 1136 (_numRepeats (self demo_running))
               = Some 880) by (vm_compute; reflexivity).
  repeat (split; [assumption || exact demo_running_reachable|]).
  exact (tone_one_schedule demo_running _ _ _ _ _ _ _
           demo_running_reachable H1 H2 H3).
Defined.

(** ** Stopping and destruction *)






(** ** Rounding to the binary32 grid

    [SFmul] rounds the exact product through [binary_round_aux].  On the
    scaled value of the product this is [grid_round], which is monotone;
    the comparison of [SpecFloat] is the comparison of positions.  Together
    they give the range and the monotonicity of [resolve_level]. *)

Lemma pow2_pos k : 0 <= k -> 0 < 2 ^ k.
Proof. intros Hk. apply Z.pow_pos_nonneg; lia. Qed.

Section Rne.
Variable k : Z.
Hypothesis Hk : 0 <= k.

Lemma rne_bounds N : N / 2 ^ k <= rne N k <= N / 2 ^ k + 1.
Proof.
  unfold rne.
  repeat match goal with
         | |- context [if ?b then _ else _] => destruct b
         end; lia.
Qed.

Lemma rne_exact a : rne (a * 2 ^ k) k = a.
Proof.
  pose proof (pow2_pos k Hk). unfold rne. rewrite Z.div_mul by lia. rewrite Z.mod_mul by lia.
  destruct (Z.ltb_spec (2 * 0) (2 ^ k)); [reflexivity|lia].
Qed.

Lemma rne_lower a N : a * 2 ^ k <= N -> a <= rne N k.
Proof.
  intros H. pose proof (pow2_pos k Hk). pose proof (rne_bounds N).
  assert (a <= N / 2 ^ k) by (apply Z.div_le_lower_bound; lia). lia.
Qed.

Lemma rne_upper b N : N <= b * 2 ^ k -> rne N k <= b.
Proof.
  intros H. pose proof (pow2_pos k Hk).
  destruct (Z.eq_dec N (b * 2 ^ k)) as [->|Hne].
  - rewrite rne_exact. lia.
  - pose proof (rne_bounds N).
    assert (N / 2 ^ k < b) by (apply Z.div_lt_upper_bound; lia). lia.
Qed.

Lemma rne_mono N1 N2 : N1 <= N2 -> rne N1 k <= rne N2 k.
Proof.
  intros H. pose proof (pow2_pos k Hk).
  assert (Hq : N1 / 2 ^ k <= N2 / 2 ^ k) by (apply Z.div_le_mono; lia).
  destruct (Z.eq_dec (N1 / 2 ^ k) (N2 / 2 ^ k)) as [Heq|Hne].
  - assert (Hr : N1 mod 2 ^ k <= N2 mod 2 ^ k).
    { rewrite !Z.mod_eq by lia. rewrite Heq. lia. }
    unfold rne. rewrite Heq.
    repeat match goal with
           | |- context [if ?a <? ?b then _ else _] => destruct (Z.ltb_spec a b)
           | |- context [if Z.even ?a then _ else _] => destruct (Z.even a)
           end; lia.
  - pose proof (rne_bounds N1). pose proof (rne_bounds N2). lia.
Qed.

End Rne.

Lemma ulp_exp_mono lo N1 N2 : 0 < N1 <= N2 -> ulp_exp lo N1 <= ulp_exp lo N2.
Proof.
  intros H. unfold ulp_exp.
  pose proof (Z.log2_le_mono N1 N2). lia.
Qed.

Lemma grid_round_mono lo N1 N2 :
  0 <= lo -> 0 < N1 <= N2 -> grid_round lo N1 <= grid_round lo N2.
Proof.
  intros Hlo H. unfold grid_round.
  pose proof (ulp_exp_mono lo N1 N2 H) as Hu.
  set (k1 := ulp_exp lo N1) in *. set (k2 := ulp_exp lo N2) in *.
  assert (Hk1 : 0 <= k1) by (unfold k1, ulp_exp; lia).
  assert (Hk2 : 0 <= k2) by lia.
  destruct (Z.eq_dec k1 k2) as [Heq|Hne].
  - rewrite <- Heq. apply Z.mul_le_mono_nonneg_r.
    + apply Z.pow_nonneg; lia.
    + apply rne_mono; lia.
  - (* the second number has more digits: a power of two lies between *)
    assert (Hlt : k1 < k2) by lia.
    assert (Hk2' : k2 = Z.log2 N2 + 1 - 24) by (unfold k1, k2, ulp_exp in *; lia).
    pose proof (Z.log2_spec N1 ltac:(lia)) as [_ HN1].
    pose proof (Z.log2_spec N2 ltac:(lia)) as [HN2 _].
    set (d := Z.log2 N2) in *.
    assert (Hd : k2 <= d) by lia.
    assert (Hk1d : k1 <= d) by lia.
    (* upper bound for the first *)
    assert (H1 : rne N1 k1 * 2 ^ k1 <= 2 ^ d).
    { replace (2 ^ d) with (2 ^ (d - k1) * 2 ^ k1)
        by (rewrite <- Z.pow_add_r by lia; f_equal; lia).
      apply Z.mul_le_mono_nonneg_r; [apply Z.pow_nonneg; lia|].
      apply rne_upper; [lia|].
      rewrite <- Z.pow_add_r by lia. replace (d - k1 + k1) with d by lia.
      assert (Z.log2 N1 + 1 <= d \/ d < Z.log2 N1 + 1) as [Hc|Hc] by lia.
      - assert (2 ^ (Z.log2 N1 + 1) <= 2 ^ d) by (apply Z.pow_le_mono_r; lia).
        rewrite <- Z.add_1_r in HN1. lia.
      - (* then k1 = lo and both have the same digits: impossible *)
        unfold k1, ulp_exp in Hlt. pose proof (Z.log2_le_mono N1 N2). lia. }
    assert (H2 : 2 ^ d <= rne N2 k2 * 2 ^ k2).
    { replace (2 ^ d) with (2 ^ (d - k2) * 2 ^ k2)
        by (rewrite <- Z.pow_add_r by lia; f_equal; lia).
      apply Z.mul_le_mono_nonneg_r; [apply Z.pow_nonneg; lia|].
      apply rne_lower; [lia|].
      rewrite <- Z.pow_add_r by lia. replace (d - k2 + k2) with d by lia.
      exact HN2. }
    lia.
Qed.

Lemma digits2_pos_size p : digits2_pos p = Pos.size p.
Proof. induction p; cbn; congruence. Qed.

Lemma Zdigits2_log2 p : Zdigits2 (Zpos p) = Z.log2 (Zpos p) + 1.
Proof.
  cbn [Zdigits2]. rewrite digits2_pos_size.
  destruct p; cbn; lia.
Qed.

Lemma iter_pos_nat {A} (f : A -> A) p x :
  iter_pos f p x = Nat.iter (Pos.to_nat p) f x.
Proof.
  revert x. induction p as [p IH|p IH|]; intros x; cbn [iter_pos].
  - rewrite !IH. rewrite Pos2Nat.inj_xI.
    replace (S (2 * Pos.to_nat p))%nat with (Pos.to_nat p + (Pos.to_nat p + 1))%nat by lia.
    rewrite !Nat.iter_add. reflexivity.
  - rewrite !IH. rewrite Pos2Nat.inj_xO.
    replace (2 * Pos.to_nat p)%nat with (Pos.to_nat p + Pos.to_nat p)%nat by lia.
    rewrite Nat.iter_add. reflexivity.
  - reflexivity.
Qed.

Lemma shr_1_nonneg m r s :
  0 <= m ->
  shr_1 {| shr_m := m; shr_r := r; shr_s := s |} =
    {| shr_m := m / 2; shr_r := Z.odd m; shr_s := r || s |}.
Proof.
  intros Hm. destruct m as [|p|p]; [reflexivity| |lia].
  destruct p as [p|p|]; cbn [shr_1].
  - f_equal. rewrite Pos2Z.inj_xI. apply Z.div_unique with 1; lia.
  - f_equal. rewrite Pos2Z.inj_xO. apply Z.div_unique with 0; lia.
  - reflexivity.
Qed.

(** After [n >= 1] shifts: the quotient, the bit shifted out last, and
    whether anything below it was set. *)
Lemma shr_iter n m :
  0 <= m ->
  let mrs := Nat.iter (S n) shr_1 {| shr_m := m; shr_r := false; shr_s := false |} in
  exists t,
    0 <= shr_m mrs /\
    m = shr_m mrs * 2 ^ Z.of_nat (S n)
        + Z.b2z (shr_r mrs) * 2 ^ Z.of_nat n + t /\
    0 <= t < 2 ^ Z.of_nat n /\
    (shr_s mrs = true <-> 0 < t).
Proof.
  intros Hm. induction n as [|n IH].
  - cbn [Nat.iter]. rewrite shr_1_nonneg by exact Hm. cbn [shr_m shr_r shr_s orb].
    exists 0. change (2 ^ Z.of_nat 1) with 2. change (2 ^ Z.of_nat 0) with 1.
    pose proof (Z.div_mod m 2 ltac:(lia)) as Hdm.
    rewrite Zmod_odd in Hdm.
    split; [apply Z.div_pos; lia|].
    split; [destruct (Z.odd m); cbn [Z.b2z] in *; lia|].
    split; [lia|]. split; [discriminate|lia].
  - cbn zeta in *. rewrite Nat.iter_succ.
    destruct (Nat.iter (S n) shr_1 _) as [q r s].
    cbn [shr_m shr_r shr_s] in IH. destruct IH as (t & Hq & Heq & Ht & Hs).
    rewrite shr_1_nonneg by exact Hq. cbn [shr_m shr_r shr_s].
    exists (Z.b2z r * 2 ^ Z.of_nat n + t).
    assert (Hp : 0 < 2 ^ Z.of_nat n) by (apply Z.pow_pos_nonneg; lia).
    assert (Hp1 : 2 ^ Z.of_nat (S n) = 2 * 2 ^ Z.of_nat n).
    { rewrite Nat2Z.inj_succ, Z.pow_succ_r by lia. reflexivity. }
    assert (Hp2 : 2 ^ Z.of_nat (S (S n)) = 4 * 2 ^ Z.of_nat n).
    { rewrite 2!Nat2Z.inj_succ, 2!Z.pow_succ_r by lia. lia. }
    pose proof (Z.div_mod q 2 ltac:(lia)) as Hdm. rewrite Zmod_odd in Hdm.
    rewrite Hp1, Hp2 in *.
    split; [apply Z.div_pos; lia|].
    split; [destruct (Z.odd q), r; cbn [Z.b2z] in *; nia|].
    split; [destruct r; cbn [Z.b2z]; lia|].
    destruct r, s; cbn [Z.b2z orb]; split; intros H; try reflexivity;
      try lia; try discriminate.
Qed.

Lemma rne_of_shr n m :
  0 <= m ->
  let mrs := Nat.iter (S n) shr_1 {| shr_m := m; shr_r := false; shr_s := false |} in
  round_nearest_even (shr_m mrs) (loc_of_shr_record mrs) = rne m (Z.of_nat (S n)).
Proof.
  intros Hm mrs. destruct (shr_iter n m Hm) as (t & Hq & Heq & Ht & Hs).
  fold mrs in Hq, Heq, Hs. clearbody mrs. destruct mrs as [q r s].
  cbn [shr_m shr_r shr_s] in *.
  assert (Hp : 0 < 2 ^ Z.of_nat n) by (apply Z.pow_pos_nonneg; lia).
  assert (Hp1 : 2 ^ Z.of_nat (S n) = 2 * 2 ^ Z.of_nat n).
  { rewrite Nat2Z.inj_succ, Z.pow_succ_r by lia. reflexivity. }
  unfold rne.
  assert (Hdiv : m / 2 ^ Z.of_nat (S n) = q).
  { symmetry. apply Z.div_unique with (Z.b2z r * 2 ^ Z.of_nat n + t);
      [destruct r; cbn [Z.b2z]; lia | lia]. }
  assert (Hmod : m mod 2 ^ Z.of_nat (S n) = Z.b2z r * 2 ^ Z.of_nat n + t).
  { symmetry. apply Z.mod_unique with q;
      [destruct r; cbn [Z.b2z]; lia | lia]. }
  rewrite Hdiv, Hmod, Hp1.
  assert (Hs' : s = false -> t = 0).
  { intros ->. destruct (Z.eq_dec t 0); [assumption|].
    assert (false = true) by (apply Hs; lia). discriminate. }
  assert (Hs'' : s = true -> 0 < t) by (intros ->; apply Hs; reflexivity).
  destruct r, s; cbn [Z.b2z loc_of_shr_record round_nearest_even];
    try (specialize (Hs' eq_refl)); try (specialize (Hs'' eq_refl));
    repeat match goal with
           | |- context [if ?a <? ?b then _ else _] => destruct (Z.ltb_spec a b)
           end; try lia; reflexivity.
Qed.

Lemma fexp32 e : fexp 24 128 e = Z.max (e - 24) (-149).
Proof. reflexivity. Qed.

Lemma rne_scale P n j :
  0 <= n -> 0 <= j -> rne (P * 2 ^ j) (n + j) = rne P n.
Proof.
  intros Hn Hj. unfold rne.
  assert (Hpn : 0 < 2 ^ n) by (apply Z.pow_pos_nonneg; lia).
  assert (Hpj : 0 < 2 ^ j) by (apply Z.pow_pos_nonneg; lia).
  rewrite Z.pow_add_r by lia.
  rewrite Z.div_mul_cancel_r by lia.
  rewrite Z.mul_mod_distr_r by lia.
  repeat match goal with
         | |- context [if ?a <? ?b then _ else _] => destruct (Z.ltb_spec a b)
         end; try reflexivity; nia.
Qed.

Lemma shr_fexp_keep P E :
  0 <= P ->
  fexp 24 128 (Zdigits2 P + E) - E <= 0 ->
  shr_fexp 24 128 P E loc_Exact =
    ({| shr_m := P; shr_r := false; shr_s := false |}, E).
Proof.
  intros HP Hn. unfold shr_fexp, shr. cbn [shr_record_of_loc].
  destruct (fexp 24 128 (Zdigits2 P + E) - E); try reflexivity. lia.
Qed.

Lemma shr_fexp_shift P E :
  0 <= P ->
  let n := fexp 24 128 (Zdigits2 P + E) - E in
  0 < n ->
  exists mrs,
    shr_fexp 24 128 P E loc_Exact = (mrs, E + n) /\
    round_nearest_even (shr_m mrs) (loc_of_shr_record mrs) = rne P n.
Proof.
  intros HP n Hn. unfold shr_fexp, shr. cbn [shr_record_of_loc]. fold n.
  destruct n as [|p|p] eqn:En; try lia.
  eexists. split; [reflexivity|].
  rewrite iter_pos_nat.
  destruct (Pos.to_nat p) as [|k] eqn:Ek; [lia|].
  rewrite (rne_of_shr k P HP). f_equal. lia.
Qed.

Lemma Zdigits2_nonneg_bound q d :
  0 < q -> q < 2 ^ d -> 0 <= d -> Zdigits2 q <= d.
Proof.
  intros Hq Hlt Hd. destruct q as [|p|p]; try lia.
  rewrite Zdigits2_log2.
  assert (Z.log2 (Zpos p) < d) by (apply Z.log2_lt_pow2; lia). lia.
Qed.

Lemma round_aux_spec p E :
  -169 <= E ->
  exists q e,
    binary_round_aux 24 128 false (Zpos p) E loc_Exact = pack q e /\
    0 <= q /\ -149 <= e /\
    q * 2 ^ (e + 169) = grid_round 20 (Zpos p * 2 ^ (E + 169)).
Proof.
  intros HE. set (P := Zpos p). assert (HP : 0 < P) by (unfold P; lia).
  set (d := Zdigits2 P). assert (Hd : d = Z.log2 P + 1) by apply Zdigits2_log2.
  pose proof (Z.log2_spec P HP) as [Hlo Hhi].
  pose proof (Z.log2_nonneg P) as Hl0.
  set (k := fexp 24 128 (d + E)).
  assert (Hk : k = Z.max (d + E - 24) (-149)) by reflexivity.
  (* the grid of the scaled product *)
  assert (Hulp : ulp_exp 20 (P * 2 ^ (E + 169)) = k + 169).
  { unfold ulp_exp. rewrite Z.log2_mul_pow2 by lia. lia. }
  unfold grid_round. rewrite Hulp.
  unfold binary_round_aux.
  destruct (Z_le_gt_dec (k - E) 0) as [Hn|Hn].
  - (* the product is representable *)
    rewrite shr_fexp_keep by (fold d; fold k; lia).
    cbn [shr_m loc_of_shr_record round_nearest_even].
    rewrite shr_fexp_keep by (fold d; fold k; lia).
    cbn [shr_m]. exists P, E. split; [reflexivity|].
    split; [lia|]. split; [lia|].
    replace (P * 2 ^ (E + 169)) with ((P * 2 ^ (E - k)) * 2 ^ (k + 169)).
    + rewrite rne_exact by lia. reflexivity.
    + rewrite <- Z.mul_assoc, <- Z.pow_add_r by lia. do 2 f_equal. lia.
  - (* bits are shifted out *)
    destruct (shr_fexp_shift P E ltac:(lia)) as (mrs & Hshr & Hrne);
      [fold d; fold k; lia|].
    fold d in Hshr, Hrne. fold k in Hshr, Hrne.
    rewrite Hshr, Hrne. replace (E + (k - E)) with k by lia.
    set (q1 := rne P (k - E)).
    assert (Hscale : rne (P * 2 ^ (E + 169)) (k + 169) = q1).
    { unfold q1. replace (k + 169) with ((k - E) + (E + 169)) by lia.
      apply rne_scale; lia. }
    rewrite Hscale.
    assert (Hq1lo : 0 <= q1).
    { unfold q1. apply rne_lower; lia. }
    assert (Hq1hi : q1 <= 2 ^ 24).
    { unfold q1. apply rne_upper; [lia|].
      rewrite <- Z.pow_add_r by lia.
      assert (2 ^ (Z.log2 P + 1) <= 2 ^ (24 + (k - E)))
        by (apply Z.pow_le_mono_r; lia).
      rewrite <- Z.add_1_r in Hhi. lia. }
    destruct (Z.eq_dec q1 (2 ^ 24)) as [Heq|Hne].
    + (* the mantissa overflowed to 2^24: one more shift *)
      rewrite Heq.
      assert (Hk' : k = d + E - 24).
      { (* otherwise the quotient is below 2^23 *)
        destruct (Z.eq_dec k (d + E - 24)) as [|Hkne]; [assumption|].
        exfalso.
        assert (q1 <= 2 ^ 23); [|lia].
        unfold q1. apply rne_upper; [lia|].
        rewrite <- Z.pow_add_r by lia.
        assert (2 ^ (Z.log2 P + 1) <= 2 ^ (23 + (k - E)))
          by (apply Z.pow_le_mono_r; lia).
        rewrite <- Z.add_1_r in Hhi. lia. }
      unfold shr_fexp. change (Zdigits2 (2 ^ 24)) with 25.
      rewrite fexp32. replace (Z.max (25 + k - 24) (-149) - k) with 1 by lia.
      cbn [shr shr_record_of_loc iter_pos shr_1 shr_m].
      change (2 ^ 24) with 16777216. cbn [shr_1 shr_m].
      exists 8388608, (k + 1). split; [reflexivity|].
      split; [lia|]. split; [lia|].
      replace (k + 1 + 169) with (1 + (k + 169)) by lia.
      rewrite Z.pow_add_r by lia. lia.
    + rewrite shr_fexp_keep.
      * cbn [shr_m]. exists q1, k. split; [destruct q1; try reflexivity; lia|].
        split; [lia|]. split; [lia|]. reflexivity.
      * lia.
      * rewrite fexp32.
        destruct (Z.eq_dec q1 0) as [->|Hq0]; [cbn [Zdigits2]; lia|].
        assert (Zdigits2 q1 <= 24) by (apply Zdigits2_nonneg_bound; lia).
        lia.
Qed.

Lemma bounded_facts m e :
  bounded 24 128 m e = true ->
  -149 <= e <= 104 /\ Zpos m < 2 ^ 24 /\ (-149 < e -> 2 ^ 23 <= Zpos m).
Proof.
  unfold bounded, canonical_mantissa. rewrite andb_true_iff, fexp32.
  rewrite Z.eqb_eq, Z.leb_le. change (128 - 24) with 104.
  rewrite digits2_pos_size.
  intros [Hc He].
  pose proof (Z.log2_spec (Zpos m) ltac:(lia)) as [Hlo Hhi].
  assert (Hsz : Zpos (Pos.size m) = Z.log2 (Zpos m) + 1)
    by (destruct m; cbn; lia).
  rewrite Hsz in Hc.
  split; [lia|]. split.
  - assert (2 ^ Z.succ (Z.log2 (Zpos m)) <= 2 ^ 24)
      by (apply Z.pow_le_mono_r; lia). lia.
  - intros Hne. replace 23 with (Z.log2 (Zpos m)) by lia. exact Hlo.
Qed.

Lemma ord_finite_bound s m e :
  bounded 24 128 m e = true ->
  - 2 ^ 300 < ord (S754_finite s m e) < 2 ^ 300 /\
  (s = false -> 0 < ord (S754_finite s m e)) /\
  (s = true -> ord (S754_finite s m e) < 0).
Proof.
  intros Hb. destruct (bounded_facts m e Hb) as ((He1 & He2) & Hm & _).
  cbn [ord].
  assert (Hp : 0 < 2 ^ (e + 149)) by (apply Z.pow_pos_nonneg; lia).
  assert (Hp2 : 2 ^ (e + 149) <= 2 ^ 253) by (apply Z.pow_le_mono_r; lia).
  assert (Hprod : Zpos m * 2 ^ (e + 149) <= 2 ^ 24 * 2 ^ 253).
  { apply Z.mul_le_mono_nonneg; lia. }
  assert (H300 : 2 ^ 24 * 2 ^ 253 < 2 ^ 300) by (vm_compute; reflexivity).
  assert (H0 : 0 < Zpos m * 2 ^ (e + 149)) by (apply Z.mul_pos_pos; lia).
  set (X := Zpos m * 2 ^ (e + 149)) in *.
  set (B := 2 ^ 300) in *. set (B' := 2 ^ 24 * 2 ^ 253) in *.
  destruct s; repeat split; try discriminate; intros; lia.
Qed.

Lemma ord_compare_pos m1 e1 m2 e2 :
  bounded 24 128 m1 e1 = true -> bounded 24 128 m2 e2 = true ->
  match e1 ?= e2 with
  | Lt => Lt
  | Gt => Gt
  | Eq => Pos.compare_cont Eq m1 m2
  end = (Zpos m1 * 2 ^ (e1 + 149) ?= Zpos m2 * 2 ^ (e2 + 149)).
Proof.
  intros H1 H2.
  destruct (bounded_facts m1 e1 H1) as ((He1 & _) & Hm1 & Hn1).
  destruct (bounded_facts m2 e2 H2) as ((He2 & _) & Hm2 & Hn2).
  assert (Hlt : forall ma ea mb eb,
            -149 <= ea -> ea < eb -> Zpos ma < 2 ^ 24 -> 2 ^ 23 <= Zpos mb ->
            Zpos ma * 2 ^ (ea + 149) < Zpos mb * 2 ^ (eb + 149)).
  { intros ma ea mb eb Ha Hab Hma Hmb.
    assert (Hp : 0 < 2 ^ (ea + 149)) by (apply Z.pow_pos_nonneg; lia).
    assert (Hle : 2 ^ (ea + 150) <= 2 ^ (eb + 149))
      by (apply Z.pow_le_mono_r; lia).
    replace (ea + 150) with (Z.succ (ea + 149)) in Hle by lia.
    rewrite Z.pow_succ_r in Hle by lia.
    nia. }
  destruct (Z.compare_spec e1 e2) as [->|Hc|Hc]; symmetry.
  - change (Pos.compare_cont Eq m1 m2) with (Zpos m1 ?= Zpos m2).
    symmetry. apply Zmult_compare_compat_r.
    apply Z.lt_gt, Z.pow_pos_nonneg; lia.
  - apply Z.compare_lt_iff. apply Hlt; lia.
  - apply Z.compare_gt_iff. apply Hlt; lia.
Qed.

(** On numbers of the format, the comparison of the library is the
    comparison of positions. *)
Lemma SFcompare_ord x y :
  C.is_float x = true -> C.is_float y = true ->
  C.is_nan x = false -> C.is_nan y = false ->
  SFcompare x y = Some (ord x ?= ord y).
Proof.
  unfold C.is_float, C.fprec, C.femax.
  destruct x as [sx|sx| |sx mx ex], y as [sy|sy| |sy my ey];
    cbn [valid_binary C.is_nan]; intros Hx Hy Nx Ny; try discriminate;
    cbn [SFcompare].
  - reflexivity.
  - destruct sy; reflexivity.
  - pose proof (ord_finite_bound sy my ey Hy) as (_ & Hp & Hn).
    destruct sy; f_equal; symmetry;
      [apply Z.compare_gt_iff; apply Hn | apply Z.compare_lt_iff; apply Hp];
      reflexivity.
  - destruct sx; reflexivity.
  - destruct sx, sy; reflexivity.
  - pose proof (ord_finite_bound sy my ey Hy) as (Hb & _).
    destruct sx; f_equal; symmetry; cbn [ord] in *;
      [apply Z.compare_lt_iff | apply Z.compare_gt_iff]; lia.
  - pose proof (ord_finite_bound sx mx ex Hx) as (_ & Hp & Hn).
    destruct sx; f_equal; symmetry;
      [apply Z.compare_lt_iff; apply Hn | apply Z.compare_gt_iff; apply Hp];
      reflexivity.
  - pose proof (ord_finite_bound sx mx ex Hx) as (Hb & _).
    destruct sy; f_equal; symmetry; cbn [ord] in *;
      [apply Z.compare_gt_iff | apply Z.compare_lt_iff]; lia.
  - pose proof (ord_finite_bound sx mx ex Hx) as (_ & Hpx & Hnx).
    pose proof (ord_finite_bound sy my ey Hy) as (_ & Hpy & Hny).
    destruct sx, sy; f_equal.
    + cbn [ord]. rewrite Z.compare_opp.
      rewrite (Z.compare_antisym (Zpos mx * 2 ^ (ex + 149))).
      rewrite <- (ord_compare_pos mx ex my ey Hx Hy).
      destruct (ex ?= ey); reflexivity.
    + symmetry. apply Z.compare_lt_iff.
      specialize (Hnx eq_refl). specialize (Hpy eq_refl). lia.
    + symmetry. apply Z.compare_gt_iff.
      specialize (Hpx eq_refl). specialize (Hny eq_refl). lia.
    + rewrite (ord_compare_pos mx ex my ey Hx Hy). reflexivity.
Qed.

Lemma half_away_scaled m e :
  -168 <= e ->
  C.half_away m e = (Zpos m * 2 ^ (e + 169) + 2 ^ 168) / 2 ^ 169.
Proof.
  intros He. unfold C.half_away.
  assert (H169 : 2 ^ 169 <> 0) by (apply Z.pow_nonzero; lia).
  assert (Hsmall : 2 ^ 168 / 2 ^ 169 = 0).
  { apply Z.div_small.
    split; [apply Z.pow_nonneg; lia | apply Z.pow_lt_mono_r; lia]. }
  destruct e as [|p|p].
  - change (0 + 169) with 169. rewrite Z.div_add_l by exact H169.
    rewrite Hsmall, Z.pow_0_r. lia.
  - rewrite Z.pow_add_r by lia. rewrite Z.mul_assoc.
    rewrite Z.div_add_l by exact H169. rewrite Hsmall. lia.
  - assert (Hp : 0 < 2 ^ Zpos p) by (apply Z.pow_pos_nonneg; lia).
    assert (Hc : 0 < 2 ^ (168 - Zpos p)) by (apply Z.pow_pos_nonneg; lia).
    rewrite <- (Z.div_mul_cancel_r (2 * Zpos m + 2 ^ Zpos p) (2 * 2 ^ Zpos p)
                  (2 ^ (168 - Zpos p))) by lia.
    f_equal.
    + rewrite Z.mul_add_distr_r. rewrite <- Z.pow_add_r by lia.
      replace (Zpos p + (168 - Zpos p)) with 168 by lia. f_equal.
      replace (Zneg p + 169) with (Z.succ (168 - Zpos p)) by lia.
      rewrite Z.pow_succ_r by lia. lia.
    + rewrite <- Z.mul_assoc, <- Z.pow_add_r by lia.
      replace (Zpos p + (168 - Zpos p)) with 168 by lia.
      change 169 with (Z.succ 168). rewrite Z.pow_succ_r by lia. reflexivity.
Qed.

Lemma round_pack q e :
  0 <= q -> -168 <= e <= 104 ->
  C.round (pack q e) = Some ((q * 2 ^ (e + 169) + 2 ^ 168) / 2 ^ 169).
Proof.
  intros Hq He. unfold pack. destruct q as [|m|m]; [| |lia].
  - cbn [C.round Z.mul Z.add]. rewrite Z.div_small; [reflexivity|].
    split; [apply Z.pow_nonneg; lia | apply Z.pow_lt_mono_r; lia].
  - destruct (Z.leb_spec e 104); [|lia]. cbn [C.round].
    rewrite half_away_scaled by lia. reflexivity.
Qed.

Lemma grid_round_hundred :
  grid_round 20 (10485760 * (100 * 2 ^ 149)) = 1000 * 2 ^ 169.
Proof. vm_compute. reflexivity. Qed.

Lemma grid_round_pos N : 0 < N -> 0 <= grid_round 20 N.
Proof.
  intros HN. unfold grid_round. apply Z.mul_nonneg_nonneg.
  - apply rne_lower; [unfold ulp_exp; lia | lia].
  - apply Z.pow_nonneg; lia.
Qed.

Lemma level_at_mono V1 V2 : 0 <= V1 <= V2 -> level_at V1 <= level_at V2.
Proof.
  intros H. unfold level_at.
  assert (H169 : 0 < 2 ^ 169) by (apply Z.pow_pos_nonneg; lia).
  assert (H168 : 0 < 2 ^ 168) by (apply Z.pow_pos_nonneg; lia).
  destruct (Z.eqb_spec V1 0) as [->|H1], (Z.eqb_spec V2 0) as [->|H2];
    try lia.
  - apply Z.div_pos; [|lia].
    pose proof (grid_round_pos (10485760 * V2)). lia.
  - apply Z.div_le_mono; [lia|].
    pose proof (grid_round_mono 20 (10485760 * V1) (10485760 * V2)). lia.
Qed.

Lemma level_at_range V : 0 <= V <= 100 * 2 ^ 149 -> 0 <= level_at V <= 1000.
Proof.
  intros H. split.
  - change 0 with (level_at 0) at 1. apply level_at_mono. lia.
  - replace 1000 with (level_at (100 * 2 ^ 149))
      by (vm_compute; reflexivity).
    apply level_at_mono. lia.
Qed.

Lemma ten_is : C.float_of_Z 10 = S754_finite false 10485760 (-20).
Proof. reflexivity. Qed.

(** The product with ten of a positive number of the format not above 100,
    rounded to an integer. *)
Lemma round_fmul_ten m e :
  bounded 24 128 m e = true ->
  Zpos m * 2 ^ (e + 149) <= 100 * 2 ^ 149 ->
  C.round (C.fmul (S754_finite false m e) (C.float_of_Z 10)) =
    Some (level_at (Zpos m * 2 ^ (e + 149))).
Proof.
  intros Hb Hle. destruct (bounded_facts m e Hb) as ((He1 & He2) & Hm & _).
  rewrite ten_is. unfold C.fmul, C.fprec, C.femax. cbn [SFmul xorb].
  destruct (round_aux_spec (m * 10485760) (e + -20) ltac:(lia))
    as (q & e' & Hpack & Hq & He' & Hval).
  rewrite Hpack.
  assert (Hp : 0 < 2 ^ (e + 149)) by (apply Z.pow_pos_nonneg; lia).
  assert (HV : 0 < Zpos m * 2 ^ (e + 149)) by (apply Z.mul_pos_pos; lia).
  assert (HN : Zpos (m * 10485760) * 2 ^ (e + -20 + 169)
               = 10485760 * (Zpos m * 2 ^ (e + 149))).
  { rewrite Pos2Z.inj_mul. replace (e + -20 + 169) with (e + 149) by lia. lia. }
  rewrite HN in Hval.
  assert (Hbound : q * 2 ^ (e' + 169) <= 1000 * 2 ^ 169).
  { rewrite Hval, <- grid_round_hundred. apply grid_round_mono; lia. }
  assert (He'' : q = 0 \/ e' <= 104).
  { destruct (Z.eq_dec q 0); [left; assumption|right].
    destruct (Z_le_gt_dec e' 104); [assumption|exfalso].
    assert (2 ^ (105 + 169) <= 2 ^ (e' + 169)) by (apply Z.pow_le_mono_r; lia).
    assert (1000 * 2 ^ 169 < 2 ^ (105 + 169)) by (vm_compute; reflexivity).
    assert (2 ^ (e' + 169) <= q * 2 ^ (e' + 169)) by nia.
    lia. }
  unfold level_at. destruct (Z.eqb_spec (Zpos m * 2 ^ (e + 149)) 0); [lia|].
  rewrite <- Hval.
  destruct He'' as [->|He''].
  - unfold pack. cbn [C.round Z.mul Z.add].
    rewrite Z.div_small; [reflexivity|].
    split; [apply Z.pow_nonneg; lia | apply Z.pow_lt_mono_r; lia].
  - apply round_pack; lia.
Qed.

Lemma SFltb_ord x y :
  C.is_float x = true -> C.is_float y = true ->
  C.is_nan x = false -> C.is_nan y = false ->
  SFltb x y = (ord x <? ord y).
Proof.
  intros Hx Hy Nx Ny. unfold SFltb. rewrite (SFcompare_ord x y Hx Hy Nx Ny).
  unfold Z.ltb. destruct (ord x ?= ord y); reflexivity.
Qed.

Lemma SFleb_ord x y :
  C.is_float x = true -> C.is_float y = true ->
  C.is_nan x = false -> C.is_nan y = false ->
  SFleb x y = (ord x <=? ord y).
Proof.
  intros Hx Hy Nx Ny. unfold SFleb. rewrite (SFcompare_ord x y Hx Hy Nx Ny).
  unfold Z.leb. destruct (ord x ?= ord y); reflexivity.
Qed.

(** Position of the clamped volume: zero, or a positive number of the
    format not above 100. *)
Lemma clamp_volume_spec v :
  C.is_float v = true -> C.is_nan v = false ->
  ord (clamp_volume v) = Z.max 0 (Z.min (ord v) (100 * 2 ^ 149)) /\
  ((exists s, clamp_volume v = S754_zero s) \/
   (exists m e, clamp_volume v = S754_finite false m e /\
                bounded 24 128 m e = true)).
Proof.
  intros Hv Nv. unfold clamp_volume.
  assert (H100 : ord (C.float_of_Z 100) = 100 * 2 ^ 149) by reflexivity.
  rewrite (SFltb_ord (C.float_of_Z 100) v) by (assumption || reflexivity).
  rewrite H100.
  destruct (Z.ltb_spec (100 * 2 ^ 149) (ord v)) as [Hgt|Hle].
  - rewrite (SFltb_ord (C.float_of_Z 100) (C.float_of_Z 0)) by reflexivity.
    change (ord (C.float_of_Z 100) <? ord (C.float_of_Z 0)) with false.
    cbv iota. rewrite H100. split; [lia|]. right.
    exists 13107200%positive, (-17). split; reflexivity.
  - rewrite (SFltb_ord v (C.float_of_Z 0)) by (assumption || reflexivity).
    change (ord (C.float_of_Z 0)) with 0.
    destruct (Z.ltb_spec (ord v) 0) as [Hneg|Hpos].
    + change (ord (C.float_of_Z 0)) with 0. split; [lia|].
      left. exists false. reflexivity.
    + split; [lia|].
      destruct v as [s|s| |s m e]; cbn [C.is_nan] in Nv; try discriminate.
      * left. exists s. reflexivity.
      * exfalso. cbn [ord] in Hle, Hpos.
        assert (100 * 2 ^ 149 < 2 ^ 300) by (vm_compute; reflexivity).
        assert (0 < 2 ^ 300) by (vm_compute; reflexivity).
        destruct s; lia.
      * right. unfold C.is_float, C.fprec, C.femax in Hv.
        cbn [valid_binary] in Hv.
        pose proof (ord_finite_bound s m e Hv) as (_ & _ & Hn).
        destruct s; [specialize (Hn eq_refl); lia|].
        exists m, e. split; [reflexivity|exact Hv].
Qed.

Lemma resolve_level_spec v :
  C.is_float v = true -> C.is_nan v = false ->
  resolve_level v = Some (level_at (Z.max 0 (Z.min (ord v) (100 * 2 ^ 149)))).
Proof.
  intros Hv Nv. destruct (clamp_volume_spec v Hv Nv) as [Hord Hc].
  rewrite <- Hord. unfold resolve_level.
  destruct Hc as [[s Hz] | (m & e & Hf & Hb)].
  - rewrite Hz. destruct s; reflexivity.
  - rewrite Hf. rewrite Hf in Hord. cbn [ord] in Hord.
    rewrite round_fmul_ten by (assumption || lia).
    cbn [ord C.cast_uint].
    pose proof (level_at_range (Zpos m * 2 ^ (e + 149)) ltac:(lia)) as Hr.
    unfold C.in_uint.
    destruct (Z.leb_spec 0 (level_at (Zpos m * 2 ^ (e + 149)))); [|lia].
    destruct (Z.ltb_spec (level_at (Zpos m * 2 ^ (e + 149))) (2 ^ 16));
      [reflexivity|].
    assert (2 ^ 16 = 65536) by reflexivity. lia.
Qed.

Lemma resolve_level_defined v :
  C.is_float v = true -> C.is_nan v = false ->
  exists l, resolve_level v = Some l /\ 0 <= l <= 1000.
Proof.
  intros Hv Nv. rewrite (resolve_level_spec v Hv Nv). eexists.
  split; [reflexivity|]. apply level_at_range. lia.
Qed.

Lemma resolve_level_mono v1 v2 l1 l2 :
  C.is_float v1 = true -> C.is_nan v1 = false ->
  C.is_float v2 = true -> C.is_nan v2 = false ->
  SFleb v1 v2 = true ->
  resolve_level v1 = Some l1 -> resolve_level v2 = Some l2 ->
  l1 <= l2.
Proof.
  intros H1 N1 H2 N2 Hle.
  rewrite (resolve_level_spec v1 H1 N1), (resolve_level_spec v2 H2 N2).
  intros [= <-] [= <-].
  rewrite (SFleb_ord v1 v2 H1 H2 N1 N2) in Hle. apply Z.leb_le in Hle.
  apply level_at_mono. lia.
Qed.

(** ** The frequency converter *)

Lemma half_away_nonneg m e : 0 <= C.half_away m e.
Proof.
  unfold C.half_away. destruct e as [|p|p].
  - lia.
  - apply Z.mul_nonneg_nonneg; [lia|]. apply Z.pow_nonneg; lia.
  - assert (0 < 2 ^ Zpos p) by (apply pow2_pos; lia).
    apply Z.div_pos; lia.
Qed.












(** ** The volume *)

Lemma resolve_level_round v l :
  resolve_level v = Some l ->
  C.round (C.fmul (clamp_volume v) (C.float_of_Z 10)) = Some l.
Proof.
  unfold resolve_level, C.cast_uint.
  destruct (C.round _) as [z|]; [|discriminate].
  destruct (C.in_uint 16 z); [|discriminate]. intros [= <-]. reflexivity.
Qed.

(** The product is the single-precision one: at the [float] next to 0.35
    the exact product with ten is below 3.5, the rounded one is 3.5, and
    the level is 4. *)
Remark resolve_level_single_precision :
  C.is_float (S754_finite false 11744051 (-25)) = true /\
  2 * (10 * 11744051) < 7 * 2 ^ 25 /\
  C.fmul (S754_finite false 11744051 (-25)) (C.float_of_Z 10)
    = S754_finite false 14680064 (-22) /\
  2 * 14680064 = 7 * 2 ^ 22 /\
  resolve_level (S754_finite false 11744051 (-25)) = Some 4.
Proof. repeat split; vm_compute; reflexivity. Qed.

(** C5, as stated, fails for a NaN: both clamping tests are false on it, the
    product and its rounding are NaN, and the conversion of a NaN to
    [uint16_t] is undefined. *)
Lemma resolve_level_nan_counterexample :
  C.is_float S754_nan = true /\
  clamp_volume S754_nan = S754_nan /\
  resolve_level S754_nan = None.
Proof. repeat split; reflexivity. Qed.

(** C5, amended: for every requested volume [v] that is not a NaN (the
    infinities included), the resolved level is defined and equals
    [round(clamp(v, 0, 100) * 10)], the product taken in single precision
    as the code does; it lies in the closed range [0, 1000] and is
    monotonically non-decreasing in [v]; for [v = 50] it is 500. *)
Theorem resolve_level_range_monotone v :
  C.is_float v = true ->
  C.is_nan v = false ->
  exists l,
    resolve_level v = Some l /\
    C.round (C.fmul (clamp_volume v) (C.float_of_Z 10)) = Some l /\
    0 <= l <= 1000 /\
    (forall v' l',
       C.is_float v' = true -> C.is_nan v' = false ->
       SFleb v v' = true -> resolve_level v' = Some l' -> l <= l') /\
    resolve_level (C.float_of_Z 50) = Some 500.
Proof.
  intros Hv Nv. destruct (resolve_level_defined v Hv Nv) as (l & Hl & Hr).
  exists l. split; [exact Hl|]. split; [apply resolve_level_round, Hl|].
  split; [exact Hr|]. split.
  - intros v' l' Hv' Nv' Hle Hl'.
    exact (resolve_level_mono v v' l l' Hv Nv Hv' Nv' Hle Hl Hl').
  - reflexivity.
Qed.

Lemma resolve_level_range_monotone_witness :
  C.is_float (S754_finite false 11744051 (-25)) = true /\
  C.is_nan (S754_finite false 11744051 (-25)) = false /\
  exists l,
    resolve_level (S754_finite false 11744051 (-25)) = Some l /\
    C.round (C.fmul (clamp_volume (S754_finite false 11744051 (-25)))
                    (C.float_of_Z 10)) = Some l /\
    0 <= l <= 1000 /\
    (forall v' l',
       C.is_float v' = true -> C.is_nan v' = false ->
       SFleb (S754_finite false 11744051 (-25)) v' = true ->
       resolve_level v' = Some l' -> l <= l') /\
    resolve_level (C.float_of_Z 50) = Some 500.
Proof.
  assert (H1 : C.is_float (S754_finite false 11744051 (-25)) = true)
    by reflexivity.
  assert (H2 : C.is_nan (S754_finite false 11744051 (-25)) = false)
    by reflexivity.
  split; [exact H1|]. split; [exact H2|].
  exact (resolve_level_range_monotone _ H1 H2).
Defined.

(** ** Degenerate timing *)

Lemma apply_writes_silence t lv :
  default 0 (apply_writes (silence t) lv !! pinPlus t) = 0 /\
  (diff t = true -> default 0 (apply_writes (silence t) lv !! pinMinus t) = 0).
Proof.
  unfold silence, apply_writes. destruct (diff t); cbn [foldl fst snd].
  - split.
    + destruct (decide (pinMinus t = pinPlus t)) as [->|Hne].
      * rewrite lookup_insert_eq. reflexivity.
      * rewrite lookup_insert_ne by done. rewrite lookup_insert_eq. reflexivity.
    + intros _. rewrite lookup_insert_eq. reflexivity.
  - split; [|discriminate]. rewrite lookup_insert_eq. reflexivity.
Qed.

(** The first invocation on a schedule of at most one toggle silences the
    leads and ends the timer. *)
Lemma fire_short_schedule m h l n m' :
  tone_post m h l n m' ->
  0 <= n <= 1 ->
  exists m'',
    fire m' = Some m'' /\ fire m'' = None /\ alarms (hw m'') = ∅ /\
    level_of (hw m'') (_pinPlus (self m')) = 0 /\
    (_diff (self m') = true -> level_of (hw m'') (_pinMinus (self m')) = 0).
Proof.
  intros [Hs Hh Hp Ha Hl Hn] Hle.
  eexists. split; [|split; [|split; [|split]]].
  - erewrite fire_registered; [reflexivity| | |].
    + rewrite Hs. reflexivity.
    + rewrite Ha. apply lookup_singleton_eq.
    + cbn [al_user_data]. rewrite Hh. apply lookup_singleton_eq.
  - cbn zeta. rewrite timer_cb_final
      by (cbn [numRepeats repeats]; rewrite wrap_small; lia).
    cbn [fst snd]. apply fire_unregistered. reflexivity.
  - cbn zeta. rewrite timer_cb_final
      by (cbn [numRepeats repeats]; rewrite wrap_small; lia).
    cbn [fst snd hw SDK.with_alarms SDK.with_level SDK.with_heap alarms].
    rewrite Ha. apply delete_singleton_eq.
  - cbn zeta. rewrite timer_cb_final
      by (cbn [numRepeats repeats]; rewrite wrap_small; lia).
    cbn [fst snd hw SDK.with_alarms SDK.with_level SDK.with_heap].
    unfold level_of. cbn [pwm_level]. rewrite Hs. cbn [_pinPlus].
    apply (apply_writes_silence
             {| numRepeats := n; repeats := 0; high := false;
                pinPlus := _pinPlus (self m); pinMinus := _pinMinus (self m);
                sliceNum := _sliceNum (self m); diff := _diff (self m);
                level := l |}).
  - cbn zeta. rewrite timer_cb_final
      by (cbn [numRepeats repeats]; rewrite wrap_small; lia).
    cbn [fst snd hw SDK.with_alarms SDK.with_level SDK.with_heap].
    unfold level_of. cbn [pwm_level]. rewrite Hs. cbn [_pinMinus _diff].
    apply (apply_writes_silence
             {| numRepeats := n; repeats := 0; high := false;
                pinPlus := _pinPlus (self m); pinMinus := _pinMinus (self m);
                sliceNum := _sliceNum (self m); diff := _diff (self m);
                level := l |}).
Qed.

(** C9, as stated, fails for a zero half period: at 2 MHz the half period
    rounds to zero microseconds and the toggle count divides by it,
    unguarded. *)
Lemma tone_zero_half_period_counterexample :
  reachable demo_idle /\
  C.is_float (C.float_of_Z 2000000) = true /\
  freq_to_us (C.float_of_Z 2000000) = Some 0 /\
  num_repeats TIME_MS 1000 0 (_numRepeats (self demo_idle)) = None /\
  tone (C.float_of_Z 2000000) (C.float_of_Z 50) 1000 TIME_MS demo_idle = None.
Proof.
  split; [exact demo_idle_reachable|]. repeat split; vm_compute; reflexivity.
Qed.

(** C9, amended: for every call of [tone] with a duration in milliseconds
    or microseconds, a volume that is not a NaN and a frequency whose
    rounded half period is positive, the computation is well defined and
    [tone] returns; a duration too short to produce any toggle gives a
    toggle count of zero, and the tone has no audible cycle: the first
    invocation of the callback puts the leads to zero and ends the timer. *)
Theorem tone_short_duration m freq volume duration time h :
  reachable m ->
  0 <= duration < 2 ^ 16 ->
  time = TIME_MS \/ time = TIME_US ->
  C.is_float volume = true -> C.is_nan volume = false ->
  freq_to_us freq = Some h -> 0 < h ->
  exists m' log,
    tone freq volume duration time m = Some (tt, m', log) /\
    (duration_us time duration < h ->
     _numRepeats (self m') = 0 /\
     exists m'',
       fire m' = Some m'' /\ fire m'' = None /\ alarms (hw m'') = ∅ /\
       level_of (hw m'') (_pinPlus (self m')) = 0 /\
       (_diff (self m') = true ->
        level_of (hw m'') (_pinMinus (self m')) = 0)).
Proof.
  intros Hreach Hd Ht Hv Nv Hfreq Hh.
  destruct (resolve_level_defined volume Hv Nv) as (l & Hl & _).
  assert (Hn : num_repeats time duration h (_numRepeats (self m))
               = Some (duration_us time duration / h)).
  { unfold duration_us. destruct Ht as [-> | ->].
    - apply num_repeats_ms; assumption.
    - apply num_repeats_us; assumption. }
  destruct (tone_run freq volume duration time m h l _
              (reachable_accounted m Hreach) Hfreq Hl Hn)
    as (m' & log & Hrun & Hpost & _).
  exists m', log. split; [exact Hrun|]. intros Hshort.
  assert (H0 : duration_us time duration / h = 0).
  { apply Z.div_small. unfold duration_us in *.
    destruct (time =? TIME_MS); lia. }
  rewrite H0 in Hpost. split.
  - rewrite (tp_self _ _ _ _ _ Hpost). reflexivity.
  - apply (fire_short_schedule m h l 0 m' Hpost). lia.
Qed.

Lemma tone_short_duration_witness :
  reachable demo_idle /\ 0 <= 1 < 2 ^ 16 /\
  (TIME_US = TIME_MS \/ TIME_US = TIME_US) /\
  C.is_float (C.float_of_Z 50) = true /\
  C.is_nan (C.float_of_Z 50) = false /\
  freq_to_us (C.float_of_Z 440) = Some 1136 /\ 0 < 1136 /\
  exists m' log,
    tone (C.float_of_Z 440) (C.float_of_Z 50) 1 TIME_US demo_idle
      = Some (tt, m', log) /\
    (duration_us TIME_US 1 < 1136 ->
     _numRepeats (self m') = 0 /\
     exists m'',
       fire m' = Some m'' /\ fire m'' = None /\ alarms (hw m'') = ∅ /\
       level_of (hw m'') (_pinPlus (self m')) = 0 /\
       (_diff (self m') = true ->
        level_of (hw m'') (_pinMinus (self m')) = 0)).
Proof.
  assert (H1 : 0 <= 1 < 2 ^ 16) by lia.
  assert (H2 : TIME_US = TIME_MS \/ TIME_US = TIME_US) by (right; reflexivity).
  assert (H3 : C.is_float (C.float_of_Z 50) = true) by reflexivity.
  assert (H4 : C.is_nan (C.float_of_Z 50) = false) by reflexivity.
  assert (H5 : freq_to_us (C.float_of_Z 440) = Some 1136)
    by (vm_compute; reflexivity).
  assert (H6 : 0 < 1136) by lia.
  repeat (split; [assumption || exact demo_idle_reachable|]).
  exact (tone_short_duration demo_idle _ _ 1 TIME_US 1136
           demo_idle_reachable H1 H2 H3 H4 H5 H6).
Defined.

(** * Further properties of the code *)

(** ** What the member functions leave alone *)

Section Keeps.

Variable R : machine -> machine -> Prop.
Hypothesis R_refl : forall m, R m m.
Hypothesis R_trans : forall m1 m2 m3, R m1 m2 -> R m2 m3 -> R m1 m3.

Lemma keeps_ret {A : Type} (a : A) : keeps R (mret a).
Proof. intros m a' m' log [= _ <- _]. apply R_refl. Qed.

Lemma keeps_bind {A B : Type} (c : M A) (f : A -> M B) :
  keeps R c -> (forall a, keeps R (f a)) -> keeps R (c ≫= f).
Proof.
  intros Hc Hf m b m' log. unfold mbind, M_bind.
  destruct (c m) as [[[a m1] l1]|] eqn:Ec; [|discriminate].
  destruct (f a m1) as [[[b' m2] l2]|] eqn:Ef; [|discriminate].
  intros [= _ <- _]. eapply R_trans; [eapply Hc|eapply Hf]; eassumption.
Qed.

Lemma keeps_this : keeps R this.
Proof. intros m a m' log [= _ <- _]. apply R_refl. Qed.

Lemma keeps_defined {A : Type} (o : option A) : keeps R (defined o).
Proof.
  intros m a m' log. unfold defined. destruct o; [|discriminate].
  intros [= _ <- _]. apply R_refl.
Qed.

Lemma keeps_when b c : keeps R c -> keeps R (when b c).
Proof. intros Hc. destruct b; [exact Hc|apply keeps_ret]. Qed.

Lemma keeps_assign f :
  (forall m, R m {| self := f (self m); hw := hw m |}) -> keeps R (assign f).
Proof. intros Hf m a m' log [= _ <- _]. apply Hf. Qed.

Lemma keeps_call {A : Type} (o : SDK.op A) :
  (forall m a w, o (hw m) = Some (a, w) -> R m {| self := self m; hw := w |}) ->
  keeps R (call o).
Proof.
  intros Ho m a m' log. unfold call.
  destruct (o (hw m)) as [[a' w]|] eqn:Eo; [|discriminate].
  intros [= _ <- _]. eapply Ho. eassumption.
Qed.

End Keeps.

Lemma same_config_refl m : same_config m m.
Proof. repeat split. Qed.

Lemma same_config_trans m1 m2 m3 :
  same_config m1 m2 -> same_config m2 m3 -> same_config m1 m3.
Proof. unfold same_config. intuition congruence. Qed.

Lemma same_settings_refl m : same_settings m m.
Proof. repeat split. Qed.

Lemma same_settings_trans m1 m2 m3 :
  same_settings m1 m2 -> same_settings m2 m3 -> same_settings m1 m3.
Proof. unfold same_settings, same_config. intuition congruence. Qed.

Ltac op_tac :=
  intros w a w'; cbv beta delta [SDK.pwm_set_enabled SDK.pwm_init
    SDK.pwm_set_counter SDK.pwm_set_gpio_level SDK.new_timer_data SDK.store
    SDK.delete SDK.alarm_pool_create SDK.alarm_pool_destroy
    SDK.alarm_pool_add_repeating_timer_us SDK.cancel_repeating_timer];
  repeat match goal with
         | |- context [match ?x with _ => _ end] => destruct x
         end;
  intros H; try discriminate H; injection H as _ <-; repeat split.

Lemma frame_pwm_set_enabled s b : op_frame (SDK.pwm_set_enabled s b).
Proof. op_tac. Qed.
Lemma frame_pwm_init s t p c b : op_frame (SDK.pwm_init s t p c b).
Proof. op_tac. Qed.
Lemma frame_pwm_set_counter s c : op_frame (SDK.pwm_set_counter s c).
Proof. op_tac. Qed.
Lemma frame_pwm_set_gpio_level g l : op_frame_slices (SDK.pwm_set_gpio_level g l).
Proof. op_tac. Qed.
Lemma frame_new_timer_data : op_frame_slices SDK.new_timer_data.
Proof. op_tac. Qed.
Lemma frame_store p t : op_frame_slices (SDK.store p t).
Proof. op_tac. Qed.
Lemma frame_delete p : op_frame_slices (SDK.delete p).
Proof. op_tac. Qed.
Lemma frame_alarm_pool_create n : op_frame_slices (SDK.alarm_pool_create n).
Proof. op_tac. Qed.
Lemma frame_alarm_pool_destroy q : op_frame_slices (SDK.alarm_pool_destroy q).
Proof. op_tac. Qed.
Lemma frame_add_repeating_timer q d u :
  op_frame_slices (SDK.alarm_pool_add_repeating_timer_us q d u).
Proof. op_tac. Qed.
Lemma frame_cancel_repeating_timer t :
  op_frame_slices (SDK.cancel_repeating_timer t).
Proof. op_tac. Qed.

Lemma op_frame_of_slices {A : Type} (o : SDK.op A) :
  op_frame_slices o -> op_frame o.
Proof. intros H w a w' Ho. apply (H w a w' Ho). Qed.

Lemma keeps_config_call {A : Type} (o : SDK.op A) :
  op_frame o -> keeps same_config (call o).
Proof.
  intros Ho. apply keeps_call. intros m a w Hw.
  repeat split. exact (Ho _ _ _ Hw).
Qed.

Lemma keeps_settings_call {A : Type} (o : SDK.op A) :
  op_frame_slices o -> keeps same_settings (call o).
Proof.
  intros Ho. apply keeps_call. intros m a w Hw.
  destruct (Ho _ _ _ Hw) as [Hg Hs]. repeat split; assumption.
Qed.

Create HintDb keeps.

#[local] Hint Resolve same_config_refl same_config_trans same_settings_refl
  same_settings_trans : keeps.
#[local] Hint Resolve frame_pwm_set_enabled frame_pwm_init
  frame_pwm_set_counter frame_pwm_set_gpio_level frame_new_timer_data
  frame_store frame_delete frame_alarm_pool_create frame_alarm_pool_destroy
  frame_add_repeating_timer frame_cancel_repeating_timer
  op_frame_of_slices : keeps.

Ltac keeps_with refl trans call_rule :=
  repeat first
    [ apply (keeps_bind _ trans); [ | intros ?]
    | apply (keeps_when _ refl)
    | apply (keeps_this _ refl)
    | apply (keeps_defined _ refl)
    | apply (keeps_ret _ refl)
    | apply call_rule; solve [auto with keeps]
    | apply keeps_assign; intros ?; repeat split ].

Ltac keeps_config :=
  keeps_with same_config_refl same_config_trans @keeps_config_call.

Ltac keeps_settings :=
  keeps_with same_settings_refl same_settings_trans @keeps_settings_call.

Lemma cancel_timer_keeps_settings : keeps same_settings cancel_timer.
Proof. unfold cancel_timer. keeps_settings. Qed.

Lemma tone_keeps_config freq volume duration time :
  keeps same_config (tone freq volume duration time).
Proof.
  unfold tone, cancel_timer. keeps_config.
Qed.

Lemma stop_tone_keeps_settings : keeps same_settings stop_tone.
Proof. unfold stop_tone, cancel_timer. keeps_settings. Qed.


(** ** What an instance keeps through its life *)

Lemma resolve_level_not_nan v l : resolve_level v = Some l -> C.is_nan v = false.
Proof. destruct v; try reflexivity. discriminate. Qed.

Lemma num_repeats_range time duration h old n :
  0 <= duration < 2 ^ 16 -> 0 <= h -> 0 <= old < 2 ^ 32 ->
  num_repeats time duration h old = Some n ->
  0 <= n < 2 ^ 32.
Proof.
  intros Hd Hh Ho. unfold num_repeats, C.udiv.
  assert (H32 : 2 ^ 32 = 4294967296) by reflexivity.
  assert (H16 : 2 ^ 16 = 65536) by reflexivity.
  destruct (time =? TIME_US).
  - destruct (Z.eqb_spec h 0); [discriminate|]. intros [= <-].
    rewrite wrap_small by lia.
    split; [apply Z.div_pos; lia|].
    assert (duration / h <= duration) by (apply Z.div_le_upper_bound; nia).
    lia.
  - destruct (time =? TIME_MS).
    + destruct (Z.eqb_spec h 0); [discriminate|]. intros [= <-].
      rewrite wrap_small by lia.
      split; [apply Z.div_pos; lia|].
      assert (1000 * duration / h <= 1000 * duration)
        by (apply Z.div_le_upper_bound; nia).
      lia.
    + intros [= <-]. exact Ho.
Qed.

Lemma freq_to_us_range f h : freq_to_us f = Some h -> 0 <= h < 2 ^ 32.
Proof.
  unfold freq_to_us, C.cast_uint, C.in_uint.
  destruct (C.round (half_period_double f)) as [z|]; [|discriminate].
  destruct (Z.leb_spec 0 z); [|discriminate].
  destruct (Z.ltb_spec z (2 ^ 32)); [|discriminate].
  intros [= <-]. lia.
Qed.

Lemma new_kept pp pm l0 n0 m :
  0 <= n0 < 2 ^ 32 ->
  RP2040_Volume_new pp pm l0 n0 world0 = Some m ->
  kept pp pm m.
Proof.
  intros Hn Hnew. pose proof (new_accounted _ _ _ _ _ Hnew) as Hacc.
  unfold RP2040_Volume_new in Hnew.
  destruct (Z.eqb_spec pm 255) as [->|Hpm]; cbn [negb] in Hnew.
  - cbn in Hnew. injection Hnew as <-.
    constructor; cbn [self hw _pinPlus _pinMinus _diff _sliceNum _numRepeats];
      try reflexivity; try assumption.
    + cbn. intros p tData H. rewrite lookup_empty in H. discriminate.
    + cbn. intros g v H. rewrite lookup_empty in H. discriminate.
    + cbn. intros g. set_unfold. tauto.
  - destruct (SDK.pwm_gpio_to_slice_num pm =? _); [|discriminate].
    cbn in Hnew. injection Hnew as <-.
    constructor; cbn [self hw _pinPlus _pinMinus _diff _sliceNum _numRepeats];
      try reflexivity; try assumption.
    + destruct (Z.eqb_spec pm 255); [contradiction|reflexivity].
    + cbn. intros p tData H. rewrite lookup_empty in H. discriminate.
    + cbn. intros g v H. rewrite lookup_empty in H. discriminate.
    + cbn. intros g. set_unfold. tauto.
Qed.

Lemma tone_kept pp pm m freq volume duration time m' log :
  kept pp pm m ->
  valid_call freq volume duration time ->
  tone freq volume duration time m = Some (tt, m', log) ->
  kept pp pm m'.
Proof.
  intros [Hacc Hp Hm Hd Hs Hc Hsch Hlv Hg] (Vf & Vv & Vd & Vt) Hrun.
  destruct (tone_accounted _ _ _ _ _ _ _ Hacc Hrun)
    as (h & l & n & Hfreq & Hl & Hn & Hpost & _).
  pose proof (tone_post_accounted _ _ _ _ _ Hpost) as Hacc'.
  destruct (resolve_level_defined volume Vv (resolve_level_not_nan _ _ Hl))
    as (l' & Hl' & Hrange).
  rewrite Hl in Hl'. injection Hl' as <-.
  pose proof (freq_to_us_range _ _ Hfreq) as [Hh _].
  pose proof (num_repeats_range _ _ _ _ _ Vd Hh Hc Hn) as Hnr.
  destruct Hpost as [Hself Hheap Hpools Halarms Hlevel Hnext].
  destruct (tone_keeps_config _ _ _ _ _ _ _ _ Hrun) as (_ & _ & _ & _ & Hgpio).
  constructor; rewrite ?Hself; cbn [_pinPlus _pinMinus _diff _sliceNum
                                     _numRepeats _level]; try assumption.
  - intros p tData. rewrite Hheap. intros Hlk.
    apply lookup_singleton_Some in Hlk as [_ <-].
    cbn [pinPlus pinMinus diff sliceNum level numRepeats repeats].
    unfold TOP. repeat split; try assumption; try lia.
  - intros g v. rewrite Hlevel, Hp, Hm, Hd.
    destruct (Z.eqb_spec pm 255) as [E|E]; cbn [negb]; intros Hlk.
    + apply lookup_insert_Some in Hlk as [[<- <-]|[_ Hlk]].
      * split; [left; reflexivity|unfold TOP; lia].
      * apply Hlv, Hlk.
    + apply lookup_insert_Some in Hlk as [[<- <-]|[_ Hlk]].
      * split; [right; split; [assumption|reflexivity]|unfold TOP; lia].
      * apply lookup_insert_Some in Hlk as [[<- <-]|[_ Hlk]].
        -- split; [left; reflexivity|unfold TOP; lia].
        -- apply Hlv, Hlk.
  - intros g. rewrite Hgpio. apply Hg.
Qed.

Lemma stop_tone_kept pp pm m m' log :
  kept pp pm m -> stop_tone m = Some (tt, m', log) -> kept pp pm m'.
Proof.
  intros [Hacc Hp Hm Hd Hs Hc Hsch Hlv Hg] Hrun.
  destruct (stop_tone_keeps_settings _ _ _ _ Hrun)
    as ((Kp & Km & Kd & Ks & Kg) & Kl & Kn & _).
  destruct (stop_tone_run m Hacc)
    as (m1 & log1 & Hrun1 & Hq & _ & _ & _ & _ & Hlevel).
  rewrite Hrun in Hrun1. injection Hrun1 as <- <-.
  pose proof (quiescent_accounted _ Hq) as Hacc'.
  destruct Hq as (_ & _ & _ & Hheap & _).
  constructor; rewrite ?Kp, ?Km, ?Kd, ?Ks, ?Kn; try assumption.
  - intros p tData. rewrite Hheap, lookup_empty. discriminate.
  - intros g v. rewrite Hlevel, Hp, Hm, Hd.
    destruct (Z.eqb_spec pm 255) as [E|E]; cbn [negb]; intros Hlk.
    + apply lookup_insert_Some in Hlk as [[<- <-]|[_ Hlk]].
      * split; [left; reflexivity|unfold TOP; lia].
      * apply Hlv, Hlk.
    + apply lookup_insert_Some in Hlk as [[<- <-]|[_ Hlk]].
      * split; [right; split; [assumption|reflexivity]|unfold TOP; lia].
      * apply lookup_insert_Some in Hlk as [[<- <-]|[_ Hlk]].
        -- split; [left; reflexivity|unfold TOP; lia].
        -- apply Hlv, Hlk.
  - intros g. rewrite Kg. apply Hg.
Qed.

(** The writes of the callback stay on the pins of the schedule, with
    values between zero and its level. *)
Lemma apply_writes_lookup ws lv gpio v :
  apply_writes ws lv !! gpio = Some v ->
  lv !! gpio = Some v \/ (gpio, v) ∈ ws.
Proof.
  unfold apply_writes. revert lv.
  induction ws as [|[g x] ws IH]; intros lv; cbn [foldl fst snd].
  - auto.
  - intros H. destruct (IH _ H) as [H1|H1].
    + apply lookup_insert_Some in H1 as [[<- <-]|[_ H1]].
      * right. left.
      * left. exact H1.
    + right. right. exact H1.
Qed.

Lemma timer_cb_writes t gpio v :
  (gpio, v) ∈ (timer_cb t).1.2 ->
  (gpio = pinPlus t \/ (diff t = true /\ gpio = pinMinus t)) /\
  (v = 0 \/ v = level t).
Proof.
  unfold timer_cb. cbn [numRepeats repeats set_repeats high].
  destruct (_ <=? _); cbn [fst snd]; unfold silence, drive;
    cbn [pinPlus pinMinus diff level set_repeats];
    destruct (diff t), (high t); intros H; set_unfold in H;
    repeat match goal with
           | H : _ \/ _ |- _ => destruct H
           | H : (_, _) = (_, _) |- _ => injection H as -> ->
           end; try contradiction; auto.
Qed.

Lemma timer_cb_fields t :
  let t' := (timer_cb t).1.1 in
  pinPlus t' = pinPlus t /\ pinMinus t' = pinMinus t /\ diff t' = diff t /\
  sliceNum t' = sliceNum t /\ level t' = level t /\
  numRepeats t' = numRepeats t /\ 0 <= repeats t' < 2 ^ 32.
Proof.
  unfold timer_cb. cbn [numRepeats repeats set_repeats].
  assert (0 <= C.wrap 32 (repeats t + 1) < 2 ^ 32)
    by (unfold C.wrap; apply Z.mod_pos_bound; reflexivity).
  destruct (_ <=? _); cbn; auto 10.
Qed.

Lemma fire_kept pp pm m m' : kept pp pm m -> fire m = Some m' -> kept pp pm m'.
Proof.
  intros [Hacc Hp Hm Hd Hs Hc Hsch Hlv Hg] Hfire.
  pose proof (fire_accounted _ _ Hacc Hfire) as Hacc'.
  unfold fire in Hfire.
  destruct (alarm_id (_timer (self m))) as [a|]; [|discriminate].
  cbn [mbind option_bind] in Hfire.
  destruct (alarms (hw m) !! a) as [al|]; [|discriminate].
  cbn [mbind option_bind] in Hfire.
  destruct (heap (hw m) !! al_user_data al) as [tData|] eqn:Eh; [|discriminate].
  cbn [mbind option_bind] in Hfire.
  pose proof (timer_cb_fields tData) as Hf.
  pose proof (timer_cb_writes tData) as Hw.
  destruct (timer_cb tData) as [[t' ws] again]. cbn [fst snd] in Hf, Hw.
  cbn zeta in Hf. destruct Hf as (F1 & F2 & F3 & F4 & F5 & F6 & F7).
  destruct (Hsch _ _ Eh) as (S1 & S2 & S3 & S4 & S5 & S6 & S7 & S8).
  assert (Hkept : forall s' w',
            _pinPlus s' = _pinPlus (self m) ->
            _pinMinus s' = _pinMinus (self m) ->
            _diff s' = _diff (self m) -> _sliceNum s' = _sliceNum (self m) ->
            _numRepeats s' = _numRepeats (self m) ->
            _level s' = _level (self m) ->
            heap w' = <[al_user_data al := t']> (heap (hw m)) ->
            pwm_level w' = apply_writes ws (pwm_level (hw m)) ->
            gpio_pwm w' = gpio_pwm (hw m) ->
            accounted {| self := s'; hw := w' |} ->
            kept pp pm {| self := s'; hw := w' |}).
  { intros s' w' E1 E2 E3 E4 E5 E6 W1 W2 W3 Ha.
    constructor; cbn [self hw];
      rewrite ?E1, ?E2, ?E3, ?E4, ?E5, ?E6, ?W1, ?W2, ?W3; try assumption.
    - intros p td Hlk.
      apply lookup_insert_Some in Hlk as [[_ <-]|[_ Hlk]].
      + rewrite F1, F2, F3, F4, F5, F6. repeat split; try assumption; lia.
      + exact (Hsch _ _ Hlk).
    - intros g v Hlk. apply apply_writes_lookup in Hlk as [Hlk|Hlk].
      + apply Hlv, Hlk.
      + destruct (Hw _ _ Hlk) as [Hpin Hval]. split.
        * destruct Hpin as [->|[Hdf ->]]; [left; assumption|right].
          split; [|assumption]. rewrite S3 in Hdf.
          destruct (Z.eqb_spec pm 255); [discriminate|assumption].
        * unfold TOP in *. destruct Hval as [->| ->]; lia. }
  destruct again; injection Hfire as <-; apply Hkept; try reflexivity;
    exact Hacc'.
Qed.

Theorem lifetime_kept pp pm m : lifetime pp pm m -> kept pp pm m.
Proof.
  induction 1 as [l0 n0 m _ _ _ Hn Hnew
                 | m freq volume duration time m' log _ IH Hv Hrun
                 | m m' log _ IH Hrun
                 | m m' _ IH Hrun].
  - eapply new_kept; eassumption.
  - eapply tone_kept; eassumption.
  - eapply stop_tone_kept; eassumption.
  - eapply fire_kept; eassumption.
Qed.

(** ** The timer runs a schedule *)

Lemma fire_n_snoc k : forall m,
  fire_n (S k) m = fire_n k m ≫= fire.
Proof.
  induction k as [|k IH]; intros m.
  - cbn [fire_n mbind option_bind]. destruct (fire m); reflexivity.
  - change (fire_n (S (S k)) m) with (fire m ≫= fire_n (S k)).
    change (fire_n (S k) m) with (fire m ≫= fire_n k).
    destruct (fire m) as [m1|]; [|reflexivity].
    cbn [mbind option_bind]. apply IH.
Qed.

Lemma drive_leads tData h lv w :
  (diff tData = true -> pinPlus tData <> pinMinus tData) ->
  pwm_level w = apply_writes (drive tData h) lv ->
  leads_read w tData h.
Proof.
  intros Hne Hw. unfold leads_read, level_of. rewrite Hw.
  unfold drive, apply_writes.
  destruct (diff tData) eqn:Ed.
  - assert (Hpm : pinMinus tData <> pinPlus tData)
      by (intros E; apply Hne; [reflexivity|congruence]).
    destruct h; cbn [foldl fst snd]; split; intros;
      rewrite ?lookup_insert_eq; try reflexivity;
      rewrite lookup_insert_ne by exact Hpm;
      rewrite lookup_insert_eq; reflexivity.
  - destruct h; cbn [foldl fst snd]; split; try discriminate;
      rewrite lookup_insert_eq; reflexivity.
Qed.

(** A toggling invocation. *)
Lemma fire_toggling m tData :
  running_as m tData ->
  C.wrap 32 (repeats tData + 1) < numRepeats tData ->
  exists m',
    fire m = Some m' /\
    running_as m' (set_high (negb (high tData))
                     (set_repeats (C.wrap 32 (repeats tData + 1)) tData)) /\
    self m' = self m /\
    pwm_level (hw m') = apply_writes (drive tData (high tData)) (pwm_level (hw m)) /\
    dom (heap (hw m')) = dom (heap (hw m)) /\
    pools (hw m') = pools (hw m) /\ alarms (hw m') = alarms (hw m).
Proof.
  intros (a & al & Ha & Hal & Hh) Hnf.
  rewrite (fire_registered m a al tData Ha Hal Hh).
  rewrite (timer_cb_toggle tData Hnf). cbn [fst snd]. cbn zeta.
  eexists. split; [reflexivity|].
  cbn [self hw heap pools alarms pwm_level SDK.with_level SDK.with_heap].
  split; [|repeat split].
  - exists a, al. cbn [self hw heap alarms SDK.with_level SDK.with_heap].
    split; [exact Ha|]. split; [exact Hal|]. apply lookup_insert_eq.
  - apply dom_insert_lookup_L. eauto.
Qed.

(** The final invocation. *)
Lemma fire_silencing m tData :
  running_as m tData ->
  numRepeats tData <= C.wrap 32 (repeats tData + 1) ->
  exists m',
    fire m = Some m' /\ fire m' = None /\
    alarm_id (_timer (self m')) = None /\
    _timerData (self m') = _timerData (self m) /\
    _alarmPool (self m') = _alarmPool (self m) /\
    pwm_level (hw m') = apply_writes (silence tData) (pwm_level (hw m)) /\
    dom (heap (hw m')) = dom (heap (hw m)) /\
    pools (hw m') = pools (hw m) /\
    (forall a, alarm_id (_timer (self m)) = Some a ->
               alarms (hw m') = delete a (alarms (hw m))).
Proof.
  intros (a & al & Ha & Hal & Hh) Hfin.
  rewrite (fire_registered m a al tData Ha Hal Hh).
  rewrite (timer_cb_final tData Hfin). cbn [fst snd]. cbn zeta.
  eexists. split; [reflexivity|].
  cbn [self hw heap pools alarms pwm_level SDK.with_level SDK.with_heap
       SDK.with_alarms set_timer _timer _timerData _alarmPool alarm_id].
  split; [apply fire_unregistered; reflexivity|].
  repeat split.
  - apply dom_insert_lookup_L. eauto.
  - intros a' Ha'. rewrite Ha in Ha'. injection Ha' as <-. reflexivity.
Qed.

Lemma toggled_0 tData :
  toggled 0 tData = set_high (high tData) (set_repeats (repeats tData) tData).
Proof.
  unfold toggled. cbn [Nat.odd Z.of_nat]. rewrite xorb_false_r, Z.add_0_r.
  reflexivity.
Qed.

(** [k] toggling invocations in a row. *)
Lemma fire_n_toggling k : forall m tData,
  running_as m tData ->
  0 <= repeats tData ->
  ((1 <= k)%nat -> repeats tData + Z.of_nat k < numRepeats tData) ->
  numRepeats tData < 2 ^ 32 ->
  exists mk,
    fire_n k m = Some mk /\
    running_as mk (toggled k tData) /\
    self mk = self m /\
    dom (heap (hw mk)) = dom (heap (hw m)) /\
    pools (hw mk) = pools (hw m) /\ alarms (hw mk) = alarms (hw m) /\
    (k = 0%nat -> pwm_level (hw mk) = pwm_level (hw m)) /\
    ((1 <= k)%nat ->
     (diff tData = true -> pinPlus tData <> pinMinus tData) ->
     leads_read (hw mk) tData (xorb (high tData) (Nat.odd (k - 1)))).
Proof.
  induction k as [|k IH]; intros m tData Hrun Hr Hk HN.
  - exists m. split; [reflexivity|].
    split.
    + destruct Hrun as (a & al & Ha & Hal & Hh). exists a, al.
      rewrite toggled_0. destruct tData. auto.
    + repeat split; try reflexivity; lia.
  - specialize (Hk ltac:(lia)).
    destruct (IH m tData Hrun Hr ltac:(lia) HN)
      as (mk & Hfn & Hrk & Hself & Hdom & Hpools & Halarms & _ & _).
    destruct (fire_toggling mk (toggled k tData) Hrk)
      as (m' & Hfire & Hr' & Hself' & Hlv & Hdom' & Hpools' & Halarms').
    { unfold toggled. cbn [repeats numRepeats set_high set_repeats].
      rewrite wrap_small; lia. }
    exists m'. rewrite fire_n_snoc, Hfn. cbn [mbind option_bind].
    split; [exact Hfire|]. split.
    + replace (toggled (S k) tData)
        with (set_high (negb (high (toggled k tData)))
                (set_repeats (C.wrap 32 (repeats (toggled k tData) + 1))
                   (toggled k tData))); [exact Hr'|].
      unfold toggled. cbn [repeats numRepeats high set_high set_repeats].
      rewrite wrap_small by lia. rewrite Nat.odd_succ, <- Nat.negb_odd.
      rewrite Nat2Z.inj_succ.
      replace (repeats tData + Z.of_nat k + 1)
        with (repeats tData + Z.succ (Z.of_nat k)) by lia.
      destruct (high tData), (Nat.odd k); reflexivity.
    + split; [congruence|]. split; [congruence|]. split; [congruence|].
      split; [congruence|]. split; [discriminate|].
      intros _ Hne. replace (S k - 1)%nat with k by lia.
      apply (drive_leads tData _ (pwm_level (hw mk))); [exact Hne|].
      rewrite Hlv. unfold toggled. rewrite drive_set_high.
      cbn [high set_high]. reflexivity.
Qed.

(** ** Facts about the examples, continued *)

Lemma demo_idle_life : lifetime 14 15 demo_idle.
Proof. eapply (life_new 14 15 0 0); try lia. exact demo_idle_new. Qed.

Lemma demo_tone_valid :
  valid_call (C.float_of_Z 1000) (C.float_of_Z 100) 1 TIME_MS.
Proof. repeat split; try reflexivity; unfold TIME_MS; lia. Qed.

Lemma demo_started_life : lifetime 14 15 demo_started.
Proof.
  eapply life_tone;
    [exact demo_idle_life | exact demo_tone_valid | exact demo_tone_runs].
Qed.

Lemma demo_running_life : lifetime 14 15 demo_running.
Proof. eapply life_fire; [exact demo_started_life | exact demo_fire]. Qed.

(** ** Properties of the whole life *)

(** X1: the pins, the mode, the slice and the routing of the pins are
    those of the construction all through the life of an instance: no
    [tone], [stop_tone] or callback changes them. *)
Theorem lifetime_configuration pp pm m :
  lifetime pp pm m ->
  _pinPlus (self m) = pp /\ _pinMinus (self m) = pm /\
  _diff (self m) = negb (pm =? 255) /\
  _sliceNum (self m) = SDK.pwm_gpio_to_slice_num pp /\
  (forall gpio,
     gpio ∈ gpio_pwm (hw m) <-> gpio = pp \/ (pm <> 255 /\ gpio = pm)).
Proof.
  intros H. destruct (lifetime_kept pp pm m H). auto.
Qed.

Lemma lifetime_configuration_witness :
  lifetime 14 15 demo_running /\
  _pinPlus (self demo_running) = 14 /\ _pinMinus (self demo_running) = 15 /\
  _diff (self demo_running) = negb (15 =? 255) /\
  _sliceNum (self demo_running) = SDK.pwm_gpio_to_slice_num 14 /\
  (forall gpio,
     gpio ∈ gpio_pwm (hw demo_running) <->
     gpio = 14 \/ (15 <> 255 /\ gpio = 15)).
Proof.
  split; [exact demo_running_life|].
  exact (lifetime_configuration 14 15 demo_running demo_running_life).
Defined.

(** X2: whatever [tone], the callback and [stop_tone] have written, the
    only pins with a duty level are the plus lead and, in differential
    mode, the minus lead, and every level is between zero and [TOP], the
    wrap of the PWM counter. *)
Theorem lifetime_levels pp pm m gpio v :
  lifetime pp pm m ->
  pwm_level (hw m) !! gpio = Some v ->
  (gpio = pp \/ (pm <> 255 /\ gpio = pm)) /\ 0 <= v <= TOP.
Proof.
  intros H. destruct (lifetime_kept pp pm m H) as [_ _ _ _ _ _ _ Hlv _].
  apply Hlv.
Qed.

Lemma lifetime_levels_witness :
  lifetime 14 15 demo_running /\
  pwm_level (hw demo_running) !! 14 = Some 1000 /\
  (14 = 14 \/ (15 <> 255 /\ 14 = 15)) /\ 0 <= 1000 <= TOP.
Proof.
  assert (H : pwm_level (hw demo_running) !! 14 = Some 1000)
    by (vm_compute; reflexivity).
  split; [exact demo_running_life|]. split; [exact H|].
  exact (lifetime_levels 14 15 demo_running 14 1000 demo_running_life H).
Defined.

(** X3: a live schedule is always the one the instance points to, and it
    carries the instance's pins, mode, slice, level and toggle target; its
    level is at most [TOP] and its counter a 32-bit value. *)
Theorem lifetime_schedule pp pm m p tData :
  lifetime pp pm m ->
  heap (hw m) !! p = Some tData ->
  _timerData (self m) = Some p /\
  pinPlus tData = _pinPlus (self m) /\ pinMinus tData = _pinMinus (self m) /\
  diff tData = _diff (self m) /\ sliceNum tData = _sliceNum (self m) /\
  level tData = _level (self m) /\ 0 <= level tData <= TOP /\
  numRepeats tData = _numRepeats (self m) /\ 0 <= repeats tData < 2 ^ 32.
Proof.
  intros H Hlk.
  destruct (lifetime_kept pp pm m H) as [Hacc Hp Hm Hd Hs _ Hsch _ _].
  destruct (Hsch p tData Hlk) as (S1 & S2 & S3 & S4 & S5 & S6 & S7 & S8).
  split.
  - destruct Hacc as [s w Ht Hq Ha Hheap Hpools Halarms
                     | s w p' q a tData' al Ht Hq Ha Hheap Hpools Halarms
                         Hal1 Hal2 Hfp Hfq Hfa
                     | s w p' q tData' Ht Hq Ha Hheap Hpools Halarms Hfp Hfq];
      cbn [self hw] in *; rewrite Hheap in Hlk.
    + rewrite lookup_empty in Hlk. discriminate.
    + apply lookup_singleton_Some in Hlk as [<- _]. exact Ht.
    + apply lookup_singleton_Some in Hlk as [<- _]. exact Ht.
  - rewrite Hp, Hm, Hd, Hs. auto 10.
Qed.

Lemma lifetime_schedule_witness :
  lifetime 14 15 demo_running /\
  heap (hw demo_running) !! 1%positive
    = Some {| numRepeats := 2; repeats := 1; high := true; pinPlus := 14;
              pinMinus := 15; sliceNum := 7; diff := true; level := 1000 |} /\
  _timerData (self demo_running) = Some 1%positive.
Proof.
  assert (H : heap (hw demo_running) !! 1%positive
              = Some {| numRepeats := 2; repeats := 1; high := true;
                        pinPlus := 14; pinMinus := 15; sliceNum := 7;
                        diff := true; level := 1000 |})
    by (vm_compute; reflexivity).
  split; [exact demo_running_life|]. split; [exact H|].
  exact (proj1 (lifetime_schedule 14 15 demo_running _ _ demo_running_life H)).
Defined.

(** ** A tone from start to end *)

Lemma tone_post_running m h l n m' :
  tone_post m h l n m' ->
  running_as m'
    {| numRepeats := n; repeats := 0; high := false;
       pinPlus := _pinPlus (self m); pinMinus := _pinMinus (self m);
       sliceNum := _sliceNum (self m); diff := _diff (self m); level := l |}.
Proof.
  intros [Hs Hh Hp Ha Hl Hn]. eexists _, _. rewrite Hs, Ha, Hh.
  cbn [_timer alarm_id]. split; [reflexivity|].
  split; [apply lookup_singleton_eq|]. apply lookup_singleton_eq.
Qed.



(** X5: a tone runs out.  After [tone] the timer makes [max N 1]
    invocations for a toggle count [N] and no more; both leads are then
    at zero and no timer is registered, but the schedule and the alarm
    pool stay live, held by the instance until [stop_tone], the next
    [tone] or the destructor releases them. *)
Theorem tone_runs_out pp pm m freq volume duration time m' log :
  lifetime pp pm m ->
  valid_call freq volume duration time ->
  tone freq volume duration time m = Some (tt, m', log) ->
  exists mfin p q,
    fire_n (Z.to_nat (Z.max 1 (_numRepeats (self m')))) m' = Some mfin /\
    fire mfin = None /\ alarms (hw mfin) = ∅ /\
    level_of (hw mfin) pp = 0 /\ (pm <> 255 -> level_of (hw mfin) pm = 0) /\
    _timerData (self mfin) = Some p /\ p ∈ dom (heap (hw mfin)) /\
    _alarmPool (self mfin) = Some q /\ q ∈ pools (hw mfin).
Proof.
  intros Hlife Hvalid Hrun.
  destruct (lifetime_kept pp pm m Hlife) as [Hacc Hp Hm Hd _ _ _ _ _].
  pose proof (lifetime_kept pp pm m' (life_tone _ _ _ _ _ _ _ _ _ Hlife Hvalid Hrun))
    as [_ _ _ _ _ Hc' _ _ _].
  destruct (tone_accounted _ _ _ _ _ _ _ Hacc Hrun)
    as (h & l & n & _ & _ & _ & Hpost & _).
  pose proof (tone_post_running _ _ _ _ _ Hpost) as Hrunning.
  destruct Hpost as [Hs Hh Hpools Halarms _ _].
  rewrite Hs in Hc' |- *. cbn [_numRepeats] in *.
  set (td := {| numRepeats := n; repeats := 0; high := false;
                pinPlus := _pinPlus (self m); pinMinus := _pinMinus (self m);
                sliceNum := _sliceNum (self m); diff := _diff (self m);
                level := l |}) in *.
  set (k := (Z.to_nat (Z.max 1 n) - 1)%nat).
  replace (Z.to_nat (Z.max 1 n)) with (S k) by (unfold k; lia).
  destruct (fire_n_toggling k m' td Hrunning)
    as (mk & Hfn & Hrk & Hself & Hdom & Hpk & Hak & _ & _);
    cbn [repeats numRepeats td]; try (unfold k; lia).
  destruct (fire_silencing mk (toggled k td) Hrk)
    as (mfin & Hfire & Hnone & _ & Ht & Hq & Hlv & Hdom' & Hpools' & Hal').
  { unfold toggled. cbn [repeats numRepeats set_high set_repeats td].
    rewrite wrap_small; unfold k; lia. }
  exists mfin, (next (hw m)), (Pos.succ (next (hw m))).
  rewrite fire_n_snoc, Hfn. cbn [mbind option_bind].
  split; [exact Hfire|]. split; [exact Hnone|].
  split.
  { rewrite (Hal' (Pos.succ (Pos.succ (next (hw m))))).
    - rewrite Hak, Halarms. apply delete_singleton_eq.
    - rewrite Hself, Hs. reflexivity. }
  pose proof (apply_writes_silence (toggled k td) (pwm_level (hw mk)))
    as [Hplus Hminus].
  unfold level_of. rewrite Hlv.
  cbn [toggled pinPlus pinMinus diff set_high set_repeats] in Hplus, Hminus.
  unfold toggled in Hplus, Hminus.
  cbn [pinPlus pinMinus diff set_high set_repeats td] in Hplus, Hminus.
  rewrite Hp in Hplus. rewrite Hm, Hd in Hminus.
  split; [exact Hplus|]. split.
  { intros E. apply Hminus. destruct (Z.eqb_spec pm 255); [contradiction|reflexivity]. }
  rewrite Ht, Hq, Hself, Hs. cbn [_timerData _alarmPool].
  rewrite Hdom', Hdom, Hh, Hpools', Hpk, Hpools.
  split; [reflexivity|]. split; [set_solver|]. split; [reflexivity|set_solver].
Qed.

Lemma tone_runs_out_witness :
  lifetime 14 15 demo_idle /\
  valid_call (C.float_of_Z 1000) (C.float_of_Z 100) 1 TIME_MS /\
  demo_tone demo_idle = Some (tt, demo_started, log_of demo_tone demo_idle) /\
  exists mfin p q,
    fire_n (Z.to_nat (Z.max 1 (_numRepeats (self demo_started)))) demo_started
      = Some mfin /\
    fire mfin = None /\ alarms (hw mfin) = ∅ /\
    level_of (hw mfin) 14 = 0 /\ (15 <> 255 -> level_of (hw mfin) 15 = 0) /\
    _timerData (self mfin) = Some p /\ p ∈ dom (heap (hw mfin)) /\
    _alarmPool (self mfin) = Some q /\ q ∈ pools (hw mfin).
Proof.
  split; [exact demo_idle_life|]. split; [exact demo_tone_valid|].
  split; [exact demo_tone_runs|].
  exact (tone_runs_out 14 15 demo_idle _ _ _ _ demo_started _
           demo_idle_life demo_tone_valid demo_tone_runs).
Defined.

(** ** Stopping, continued *)






(** ** Construction *)



(** ** The duration a tone lasts *)



(** ** Volumes, continued *)

Lemma tenth_from_spec count : forall t k,
  tenth_from count t = true ->
  t <= k < t + Z.of_nat count ->
  tenth_at k = true.
Proof.
  induction count as [|count IH]; intros t k Hc Hk; [lia|].
  cbn [tenth_from] in Hc. apply andb_true_iff in Hc as [Ht Hrest].
  destruct (Z.eq_dec k t) as [->|Hne]; [exact Ht|].
  apply (IH (t + 1)); [exact Hrest|lia].
Qed.

Lemma tenth_all : tenth_from (Z.to_nat 1001) 0 = true.
Proof. vm_compute. reflexivity. Qed.

(** X10: the level saturates: every volume of zero or below, minus
    infinity included, resolves to 0 and every volume of 100 or above,
    plus infinity included, to 1000. *)
Theorem resolve_level_saturates v :
  C.is_float v = true -> C.is_nan v = false ->
  (ord v <= 0 -> resolve_level v = Some 0) /\
  (100 * 2 ^ 149 <= ord v -> resolve_level v = Some 1000).
Proof.
  intros Hv Nv. rewrite (resolve_level_spec v Hv Nv). split; intros H.
  - replace (Z.max 0 (Z.min (ord v) (100 * 2 ^ 149))) with 0 by lia.
    reflexivity.
  - replace (Z.max 0 (Z.min (ord v) (100 * 2 ^ 149))) with (100 * 2 ^ 149)
      by lia.
    vm_compute. reflexivity.
Qed.

Lemma resolve_level_saturates_witness :
  C.is_float (S754_infinity false) = true /\
  C.is_nan (S754_infinity false) = false /\
  100 * 2 ^ 149 <= ord (S754_infinity false) /\
  resolve_level (S754_infinity false) = Some 1000.
Proof.
  assert (H1 : C.is_float (S754_infinity false) = true) by reflexivity.
  assert (H2 : C.is_nan (S754_infinity false) = false) by reflexivity.
  assert (H3 : 100 * 2 ^ 149 <= ord (S754_infinity false))
    by (vm_compute; discriminate).
  repeat (split; [assumption|]).
  exact (proj2 (resolve_level_saturates _ H1 H2) H3).
Defined.

(** X11: the level is the volume in tenths: for every level [t] from 0 to
    1000, every volume within 0.04 of [t/10] resolves to [t] (95.11, for
    one, to 951).  The position [ord v] is the volume in units of
    [2^-149]. *)
Theorem resolve_level_tenths v t :
  C.is_float v = true -> C.is_nan v = false ->
  0 <= t <= 1000 ->
  (10 * t - 4) * 2 ^ 149 <= 100 * ord v <= (10 * t + 4) * 2 ^ 149 ->
  resolve_level v = Some t.
Proof.
  intros Hv Nv Ht Hnear.
  pose proof (tenth_from_spec _ 0 t tenth_all ltac:(lia)) as Hc.
  unfold tenth_at in Hc.
  set (lo := float_ratio (100 * t - 45) 1000) in *.
  set (hi := float_ratio (100 * t + 45) 1000) in *.
  destruct (resolve_level lo) as [a|] eqn:Ea; [|discriminate].
  destruct (resolve_level hi) as [b|] eqn:Eb; [|discriminate].
  repeat (apply andb_true_iff in Hc as [Hc ?]).
  apply Z.eqb_eq in Hc. subst a.
  match goal with H : (b =? t) = true |- _ => apply Z.eqb_eq in H; subst b end.
  repeat match goal with
         | H : negb _ = true |- _ => apply negb_true_iff in H
         | H : (_ <=? _) = true |- _ => apply Z.leb_le in H
         end.
  destruct (resolve_level_defined v Hv Nv) as (l & Hl & _).
  assert (Hlo : t <= l).
  { apply (resolve_level_mono lo v t l); try assumption.
    rewrite SFleb_ord by assumption. apply Z.leb_le. lia. }
  assert (Hhi : l <= t).
  { apply (resolve_level_mono v hi l t); try assumption.
    rewrite SFleb_ord by assumption. apply Z.leb_le. lia. }
  rewrite Hl. f_equal. lia.
Qed.

Lemma resolve_level_tenths_witness :
  C.is_float (float_ratio 9511 100) = true /\
  C.is_nan (float_ratio 9511 100) = false /\
  0 <= 951 <= 1000 /\
  (10 * 951 - 4) * 2 ^ 149 <= 100 * ord (float_ratio 9511 100)
    <= (10 * 951 + 4) * 2 ^ 149 /\
  resolve_level (float_ratio 9511 100) = Some 951.
Proof.
  assert (H1 : C.is_float (float_ratio 9511 100) = true)
    by (vm_compute; reflexivity).
  assert (H2 : C.is_nan (float_ratio 9511 100) = false)
    by (vm_compute; reflexivity).
  assert (H3 : 0 <= 951 <= 1000) by lia.
  assert (H4 : (10 * 951 - 4) * 2 ^ 149 <= 100 * ord (float_ratio 9511 100)
               <= (10 * 951 + 4) * 2 ^ 149)
    by (vm_compute; split; discriminate).
  repeat (split; [assumption|]).
  exact (resolve_level_tenths _ 951 H1 H2 H3 H4).
Defined.

(** ** Frequencies that are not positive *)

Lemma round_sign_set x z : sign_set x -> C.round x = Some z -> z <= 0.
Proof.
  destruct x as [s|s| |s m e]; cbn [sign_set C.round]; try discriminate.
  - intros _ [= <-]. lia.
  - intros -> [= <-]. pose proof (half_away_nonneg m e). lia.
Qed.

Lemma round_aux_sign_set prec emax P E l :
  sign_set (binary_round_aux prec emax true P E l).
Proof.
  unfold binary_round_aux.
  destruct (shr_fexp prec emax P E l) as [mrs e].
  destruct (shr_fexp prec emax _ e loc_Exact) as [mrs' e'].
  destruct (shr_m mrs') as [|m|m]; cbn [sign_set]; try reflexivity.
  destruct (e' <=? emax - prec); reflexivity.
Qed.

(** A product or quotient of two values that are not NaN, one with the
    sign bit clear and one with it set, has the sign bit set. *)
Lemma SFmul_sign_set prec emax x y :
  C.is_nan x = false -> sign_clear x -> sign_set y ->
  sign_set (SFmul prec emax x y).
Proof.
  destruct x as [sx|sx| |sx mx ex], y as [sy|sy| |sy my ey];
    cbn [sign_clear sign_set SFmul C.is_nan]; intros; subst;
    try reflexivity; try exact I; try discriminate.
  apply round_aux_sign_set.
Qed.

Lemma SFmul_sign_set_l prec emax x y :
  C.is_nan y = false -> sign_set x -> sign_clear y ->
  sign_set (SFmul prec emax x y).
Proof.
  destruct x as [sx|sx| |sx mx ex], y as [sy|sy| |sy my ey];
    cbn [sign_clear sign_set SFmul C.is_nan]; intros; subst;
    try reflexivity; try exact I; try discriminate.
  apply round_aux_sign_set.
Qed.

Lemma SFdiv_sign_set prec emax x y :
  C.is_nan x = false -> sign_clear x -> sign_set y ->
  sign_set (SFdiv prec emax x y).
Proof.
  destruct x as [sx|sx| |sx mx ex], y as [sy|sy| |sy my ey];
    cbn [sign_clear sign_set SFdiv C.is_nan]; intros; subst;
    try reflexivity; try exact I; try discriminate.
  destruct (SFdiv_core_binary prec emax (Zpos mx) ex (Zpos my) ey)
    as [[mz ez] lz].
  apply round_aux_sign_set.
Qed.

Lemma double_of_float_sign_set f :
  sign_set f -> sign_set (C.double_of_float f).
Proof.
  destruct f as [s|s| |s m e]; cbn [sign_set C.double_of_float]; auto.
  intros ->. unfold binary_round.
  destruct (shl_align m e _) as [mz ez]. apply round_aux_sign_set.
Qed.

Lemma half_period_double_sign_set f :
  sign_set f -> sign_set (half_period_double f).
Proof.
  intros Hf. unfold half_period_double, C.dmul, C.ddiv.
  apply SFmul_sign_set_l; [reflexivity| |reflexivity].
  apply SFdiv_sign_set; [reflexivity|reflexivity|].
  apply SFmul_sign_set; [reflexivity|reflexivity|].
  apply double_of_float_sign_set, Hf.
Qed.

Lemma freq_to_us_sign_set f :
  sign_set f -> freq_to_us f = None \/ freq_to_us f = Some 0.
Proof.
  intros Hf. pose proof (half_period_double_sign_set f Hf) as Hs.
  unfold freq_to_us.
  destruct (C.round (half_period_double f)) as [z|] eqn:Er; [|left; reflexivity].
  pose proof (round_sign_set _ _ Hs Er) as Hz.
  unfold C.cast_uint, C.in_uint.
  destruct (Z.leb_spec 0 z); [|left; reflexivity].
  replace z with 0 by lia. right. reflexivity.
Qed.

Lemma freq_to_us_not_positive f :
  C.is_float f = true -> ord f <= 0 ->
  freq_to_us f = None \/ freq_to_us f = Some 0.
Proof.
  intros Hv Hf. destruct f as [s|s| |s m e].
  - left. destruct s; vm_compute; reflexivity.
  - destruct s; [apply freq_to_us_sign_set; reflexivity|].
    exfalso. cbn [ord] in Hf.
    assert (0 < 2 ^ 300) by (apply pow2_pos; lia). lia.
  - left. vm_compute. reflexivity.
  - destruct s; [apply freq_to_us_sign_set; reflexivity|].
    exfalso. unfold C.is_float, C.fprec, C.femax in Hv.
    cbn [valid_binary] in Hv.
    pose proof (ord_finite_bound false m e Hv) as (_ & Hpos & _).
    specialize (Hpos eq_refl). lia.
Qed.

Lemma num_repeats_zero time duration old :
  time = TIME_MS \/ time = TIME_US ->
  num_repeats time duration 0 old = None.
Proof. intros [-> | ->]; reflexivity. Qed.

(** X12: a frequency that is zero, negative or a NaN has no half period:
    the conversion is undefined or gives zero microseconds, and with a
    duration in milliseconds or microseconds [tone] has no defined
    behaviour, in whatever state it is called. *)
Theorem tone_frequency_not_positive freq volume duration time m :
  C.is_float freq = true -> ord freq <= 0 ->
  time = TIME_MS \/ time = TIME_US ->
  (freq_to_us freq = None \/ freq_to_us freq = Some 0) /\
  tone freq volume duration time m = None.
Proof.
  intros Hv Hf Ht. pose proof (freq_to_us_not_positive freq Hv Hf) as Hh.
  split; [exact Hh|].
  destruct (tone freq volume duration time m) as [[[u m'] log]|] eqn:E;
    [|reflexivity].
  destruct (tone_inv _ _ _ _ _ _ _ _ E) as (h & l & n & H1 & _ & H3).
  destruct Hh as [Hh|Hh]; rewrite Hh in H1; [discriminate|].
  injection H1 as <-. rewrite num_repeats_zero in H3 by exact Ht.
  discriminate.
Qed.

Lemma tone_frequency_not_positive_witness :
  C.is_float (S754_finite true 13107200 (-17)) = true /\
  ord (S754_finite true 13107200 (-17)) <= 0 /\
  (TIME_MS = TIME_MS \/ TIME_MS = TIME_US) /\
  (freq_to_us (S754_finite true 13107200 (-17)) = None \/
   freq_to_us (S754_finite true 13107200 (-17)) = Some 0) /\
  tone (S754_finite true 13107200 (-17)) (C.float_of_Z 50) 1000 TIME_MS
    demo_idle = None.
Proof.
  assert (H1 : ord (S754_finite true 13107200 (-17)) <= 0)
    by (vm_compute; discriminate).
  assert (H2 : TIME_MS = TIME_MS \/ TIME_MS = TIME_US) by (left; reflexivity).
  assert (H0 : C.is_float (S754_finite true 13107200 (-17)) = true)
    by reflexivity.
  split; [exact H0|]. split; [exact H1|]. split; [exact H2|].
  exact (tone_frequency_not_positive _ (C.float_of_Z 50) 1000 TIME_MS
           demo_idle H0 H1 H2).
Defined.

(** ** The order of the calls *)

Ltac each_world tac :=
  repeat (apply List.Forall_cons; [tac|]); apply List.Forall_nil.

Ltac dangling :=
  let Hlk := fresh "Hlk" in
  intros ? ?; cbn [alarms pools heap]; intros Hlk;
  first
    [ rewrite lookup_empty in Hlk; discriminate Hlk
    | apply lookup_singleton_Some in Hlk as [<- <-];
      cbn [al_pool al_user_data];
      split;
      [ set_solver
      | first [rewrite lookup_singleton_eq | rewrite lookup_insert_eq];
        eauto ] ].

Ltac slice_off :=
  unfold SDK.slice_of; cbn [pwm_slices sl_enabled];
  rewrite ?lookup_insert_eq; reflexivity.

Lemma tone_log freq volume duration time m h l n :
  accounted m ->
  freq_to_us freq = Some h ->
  resolve_level volume = Some l ->
  num_repeats time duration h (_numRepeats (self m)) = Some n ->
  exists m' log,
    tone freq volume duration time m = Some (tt, m', log) /\
    Forall no_dangling log /\
    Forall (fun w => sl_enabled (SDK.slice_of w (_sliceNum (self m))) = false)
           (removelast log) /\
    last log = Some (hw m') /\
    pwm_slices (hw m') !! _sliceNum (self m)
      = Some {| sl_enabled := true; sl_wrap := TOP; sl_phase_correct := true;
                sl_clkdiv := 1; sl_counter := 0 |}.
Proof.
  intros Hacc Hh Hl Hn. unfold tone. rewrite Hh, Hl.
  destruct Hacc as [s w Ht Hq Ha Hheap Hpools Halarms
                   | s w p q a tData al Ht Hq Ha Hheap Hpools Halarms Hal1 Hal2
                       Hfp Hfq Hfa
                   | s w p q tData Ht Hq Ha Hheap Hpools Halarms Hfp Hfq];
    destruct s as [l0 pp pm sn d td0 nr ap tm];
    destruct w as [hp pl alm gp sl lv nx];
    cbn [self hw heap pools alarms gpio_pwm pwm_slices pwm_level next
         _timerData _alarmPool _timer _numRepeats _sliceNum] in *;
    subst.
  all: destruct d; run; rewrite Hn; run.
  all: try (destruct tm as [ai tp]; cbn [alarm_id] in Ha; subst ai; run).
  all: eexists _, _; (split; [reflexivity|]).
  all: cbn [removelast last].
  all: split; [each_world dangling|].
  all: split; [each_world slice_off|].
  all: split; [reflexivity|].
  all: unfold SDK.slice_of; cbn [hw pwm_slices];
    repeat (rewrite lookup_insert_eq;
            cbn [default from_option id pwm_slices sl_enabled sl_wrap
                 sl_phase_correct sl_clkdiv sl_counter]);
    reflexivity.
Qed.

Lemma stop_tone_log m :
  accounted m ->
  exists m' log, stop_tone m = Some (tt, m', log) /\ Forall no_dangling log.
Proof.
  intros Hacc. unfold stop_tone.
  destruct Hacc as [s w Ht Hq Ha Hheap Hpools Halarms
                   | s w p q a tData al Ht Hq Ha Hheap Hpools Halarms Hal1 Hal2
                       Hfp Hfq Hfa
                   | s w p q tData Ht Hq Ha Hheap Hpools Halarms Hfp Hfq];
    destruct_machine s w.
  all: try (destruct tm as [ai tp]; cbn [alarm_id] in Ha; subst ai).
  all: destruct d; run.
  all: eexists _, _; (split; [reflexivity|]).
  all: each_world dangling.
Qed.

Lemma destructor_log m :
  accounted m ->
  exists m' log, destructor m = Some (tt, m', log) /\ Forall no_dangling log.
Proof.
  intros Hacc. unfold destructor.
  destruct Hacc as [s w Ht Hq Ha Hheap Hpools Halarms
                   | s w p q a tData al Ht Hq Ha Hheap Hpools Halarms Hal1 Hal2
                       Hfp Hfq Hfa
                   | s w p q tData Ht Hq Ha Hheap Hpools Halarms Hfp Hfq];
    destruct_machine s w.
  all: try (destruct tm as [ai tp]; cbn [alarm_id] in Ha; subst ai).
  all: run.
  all: eexists _, _; (split; [reflexivity|]).
  all: each_world dangling.
Qed.

Lemma accounted_no_dangling m : accounted m -> no_dangling (hw m).
Proof.
  intros [s w Ht Hq Ha Hheap Hpools Halarms
         | s w p q a tData al Ht Hq Ha Hheap Hpools Halarms Hal1 Hal2
             Hfp Hfq Hfa
         | s w p q tData Ht Hq Ha Hheap Hpools Halarms Hfp Hfq];
    cbn [hw]; intros a' al'; rewrite Halarms; intros Hlk.
  - rewrite lookup_empty in Hlk. discriminate.
  - apply lookup_singleton_Some in Hlk as [<- <-].
    rewrite Hpools, Hheap, Hal1, Hal2, lookup_singleton_eq.
    split; [set_solver|eauto].
  - rewrite lookup_empty in Hlk. discriminate.
Qed.

Lemma fire_slices m m' :
  fire m = Some m' -> pwm_slices (hw m') = pwm_slices (hw m).
Proof.
  unfold fire.
  destruct (alarm_id (_timer (self m))) as [a|]; [|discriminate].
  cbn [mbind option_bind].
  destruct (alarms (hw m) !! a) as [al|]; [|discriminate].
  cbn [mbind option_bind].
  destruct (heap (hw m) !! al_user_data al) as [tData|]; [|discriminate].
  cbn [mbind option_bind].
  destruct (timer_cb tData) as [[tData' ws] again].
  destruct again; intros [= <-]; reflexivity.
Qed.

Lemma fire_n_slices n : forall m m',
  fire_n n m = Some m' -> pwm_slices (hw m') = pwm_slices (hw m).
Proof.
  induction n as [|n IH]; intros m m'; cbn [fire_n].
  - intros [= <-]. reflexivity.
  - destruct (fire m) as [m1|] eqn:E; cbn [mbind option_bind]; [|discriminate].
    intros H. rewrite (IH _ _ H). apply fire_slices, E.
Qed.

(** X13: a registered timer never outlives what it refers to.  In every
    reachable state, and after each single call that [tone], [stop_tone]
    and the destructor make to a collaborator, every registered timer
    belongs to a live alarm pool and points to a live schedule: the timer
    is cancelled before the schedule is deleted and the pool destroyed. *)
Theorem timer_never_dangles m :
  reachable m ->
  no_dangling (hw m) /\
  (forall freq volume duration time m' log,
     tone freq volume duration time m = Some (tt, m', log) ->
     Forall no_dangling log) /\
  (exists m' log, stop_tone m = Some (tt, m', log) /\ Forall no_dangling log) /\
  (exists m' log, destructor m = Some (tt, m', log) /\ Forall no_dangling log).
Proof.
  intros Hreach. pose proof (reachable_accounted m Hreach) as Hacc.
  split; [apply accounted_no_dangling, Hacc|].
  split; [|split; [apply stop_tone_log, Hacc|apply destructor_log, Hacc]].
  intros freq volume duration time m' log Hrun.
  destruct (tone_inv _ _ _ _ _ _ _ _ Hrun) as (h & l & n & Hh & Hl & Hn).
  destruct (tone_log freq volume duration time m h l n Hacc Hh Hl Hn)
    as (m1 & log1 & Hrun1 & Hd & _).
  rewrite Hrun in Hrun1. injection Hrun1 as <- <-. exact Hd.
Qed.

Lemma timer_never_dangles_witness :
  reachable demo_running /\
  no_dangling (hw demo_running) /\
  (forall freq volume duration time m' log,
     tone freq volume duration time demo_running = Some (tt, m', log) ->
     Forall no_dangling log) /\
  (exists m' log,
     stop_tone demo_running = Some (tt, m', log) /\ Forall no_dangling log) /\
  (exists m' log,
     destructor demo_running = Some (tt, m', log) /\ Forall no_dangling log).
Proof.
  split; [exact demo_running_reachable|].
  exact (timer_never_dangles demo_running demo_running_reachable).
Defined.

(** X14: [tone] configures with the outputs off.  Every call [tone] makes
    to a collaborator but the last leaves the slice of the leads disabled;
    the last call enables it, with the counter at zero, the wrap at [TOP],
    phase correction on and the clock divider 1, and no invocation of the
    callback changes that: the slice keeps running when the tone has run
    out. *)
Theorem tone_enables_last pp pm m freq volume duration time m' log :
  lifetime pp pm m ->
  tone freq volume duration time m = Some (tt, m', log) ->
  Forall (fun w => sl_enabled (SDK.slice_of w (SDK.pwm_gpio_to_slice_num pp))
                   = false)
         (removelast log) /\
  last log = Some (hw m') /\
  (forall k mk,
     fire_n k m' = Some mk ->
     pwm_slices (hw mk) !! SDK.pwm_gpio_to_slice_num pp
       = Some {| sl_enabled := true; sl_wrap := TOP; sl_phase_correct := true;
                 sl_clkdiv := 1; sl_counter := 0 |}).
Proof.
  intros Hlife Hrun.
  destruct (lifetime_kept pp pm m Hlife) as [Hacc _ _ _ Hsl _ _ _ _].
  destruct (tone_inv _ _ _ _ _ _ _ _ Hrun) as (h & l & n & Hh & Hl & Hn).
  destruct (tone_log freq volume duration time m h l n Hacc Hh Hl Hn)
    as (m1 & log1 & Hrun1 & _ & Hoff & Hlast & Hon).
  rewrite Hrun in Hrun1. injection Hrun1 as <- <-.
  rewrite Hsl in Hoff, Hon.
  split; [exact Hoff|]. split; [exact Hlast|].
  intros k mk Hk. rewrite (fire_n_slices _ _ _ Hk). exact Hon.
Qed.

Lemma tone_enables_last_witness :
  lifetime 14 15 demo_idle /\
  demo_tone demo_idle = Some (tt, demo_started, log_of demo_tone demo_idle) /\
  Forall (fun w => sl_enabled (SDK.slice_of w (SDK.pwm_gpio_to_slice_num 14))
                   = false)
         (removelast (log_of demo_tone demo_idle)) /\
  last (log_of demo_tone demo_idle) = Some (hw demo_started) /\
  (forall k mk,
     fire_n k demo_started = Some mk ->
     pwm_slices (hw mk) !! SDK.pwm_gpio_to_slice_num 14
       = Some {| sl_enabled := true; sl_wrap := TOP; sl_phase_correct := true;
                 sl_clkdiv := 1; sl_counter := 0 |}).
Proof.
  split; [exact demo_idle_life|]. split; [exact demo_tone_runs|].
  exact (tone_enables_last 14 15 demo_idle _ _ _ _ demo_started _
           demo_idle_life demo_tone_runs).
Defined.
